(** * USML reverberation envelopes

    A shallow embedding of [usml::eigenverb::envelope_collection]
    (envelope_collection.h) and of [usml::sensors::beam_pattern_sine]
    (beam_pattern_sine.cc), with the properties of the envelope store
    proved or refuted against it.

    Conventions.
    - A C++ [double] is read as a real number: rounding, infinities and NaN
      are set aside, so [+] is the exact sum.
    - [size_t] is [nat]; [sensor_model::id_type] (an [int]) is [Z].
    - A method that touches the object is a computation in the monad [M]:
      it threads the object, logs what it does to [_envelopes_mutex] and to
      the mutable members, and ends by returning, by throwing or in
      undefined behaviour (a raw array access outside its bounds). *)

From Stdlib Require Import Reals Lra Lia ZArith.
From stdpp Require Import base option list.

Definition double : Type := R.

(** ** boost::numeric::ublas *)

Module ublas.

(** [matrix<double>]: dense, row major, [size1] rows and [size2] columns. *)
Record matrix : Type := Matrix {
  size1 : nat;
  size2 : nat;
  data : list double
}.

(** [vector<double>]. *)
Definition vector : Type := list double.

(** [zero_matrix<double>(n1, n2)]. *)
Definition zero_matrix (n1 n2 : nat) : matrix :=
  Matrix n1 n2 (replicate (n1 * n2) 0%R).

(** [scalar_vector<double>(n, x)]: [n] entries, all [x]. *)
Definition scalar_vector (n : nat) (x : double) : vector :=
  replicate n x.

(** [m(i, j)], with the bounds check of a debug build. *)
Definition elem (m : matrix) (i j : nat) : option double :=
  if bool_decide (i < size1 m ∧ j < size2 m)
  then data m !! (i * size2 m + j)
  else None.

(** The storage holds one value per entry. *)
Definition well_formed (m : matrix) : Prop :=
  length (data m) = size1 m * size2 m.

(** Entry-wise update: entry [(i, j)] becomes [g i j x], the shape stays. *)
Definition map_entries (g : nat → nat → double → double) (m : matrix) : matrix :=
  Matrix (size1 m) (size2 m)
         (imap (λ k x, g (k / size2 m) (k mod size2 m) x) (data m)).

End ublas.

Import ublas.

(** ** Types the headers use but do not declare *)

(** [seq_vector]: an ordered sequence of numbers; only its size and its
    values are used here. *)
Definition seq_vector : Type := list double.

(** [wposition1]: a point in world coordinates, with the accessors that
    analytic_wedge.cc calls. *)
Record wposition1 : Type := Wposition1 {
  latitude : double;
  longitude : double;
  altitude : double
}.

(** Modelled from the spec: the eigenverb, an external entity of which the
    store reads the travel time, the azimuth and the energy per frequency. *)
Record eigenverb : Type := Eigenverb {
  time : double;
  azimuth : double;
  energy : list double
}.

(** Modelled from the spec: the class [envelope_model] (envelope_model.h is
    missing), the Gaussian contribution engine.  The spec fixes its contract
    and not its formulas, so they are fields:
    - [peak_intensity src rcv scatter xs2 ys2 f]: peak linear intensity of the
      pulse response at frequency number [f];
    - [pulse_shape len dt]: the response at [dt] seconds from the combined
      two-way travel time, relative to the peak;
    - [half_width len]: half the width of the time support, set by the pulse
      length;
    - [azimuth_buckets rcv]: the azimuth numbers that own the contribution;
    - intensities are never negative. *)
Record envelope_model : Type := EnvelopeModel {
  peak_intensity : eigenverb → eigenverb → double → double → double → nat → double;
  pulse_shape : double → double → double;
  half_width : double → double;
  azimuth_buckets : eigenverb → list nat;
  peak_intensity_nonneg :
    ∀ src rcv sc xs2 ys2 f, (0 <= peak_intensity src rcv sc xs2 ys2 f)%R;
  pulse_shape_nonneg : ∀ len dt, (0 <= pulse_shape len dt)%R
}.

(** ** The object *)

(** The data members of [envelope_collection], in the order of the header.
    [_envelopes] is the nested array [matrix<double>****], indexed by azimuth,
    source beam and receiver beam.  [_envelopes_mutex] has no field: what the
    methods do to it is logged ([event]). *)
Record envelope_collection : Type := EnvelopeCollection {
  _envelope_freq : seq_vector;
  _travel_time : seq_vector;
  _reverb_duration : double;
  _pulse_length : double;
  _threshold : double;
  _num_azimuths : nat;
  _num_src_beams : nat;
  _num_rcv_beams : nat;
  _initial_time : double;
  _slant_range : double;
  _source_id : Z;
  _receiver_id : Z;
  _source_position : wposition1;
  _receiver_position : wposition1;
  _envelope_model : envelope_model;
  _envelopes : list (list (list matrix))
}.

Definition with_initial_time (x : double) (c : envelope_collection) :=
  EnvelopeCollection (_envelope_freq c) (_travel_time c) (_reverb_duration c)
    (_pulse_length c) (_threshold c) (_num_azimuths c) (_num_src_beams c)
    (_num_rcv_beams c) x (_slant_range c) (_source_id c) (_receiver_id c)
    (_source_position c) (_receiver_position c) (_envelope_model c)
    (_envelopes c).

Definition with_slant_range (x : double) (c : envelope_collection) :=
  EnvelopeCollection (_envelope_freq c) (_travel_time c) (_reverb_duration c)
    (_pulse_length c) (_threshold c) (_num_azimuths c) (_num_src_beams c)
    (_num_rcv_beams c) (_initial_time c) x (_source_id c) (_receiver_id c)
    (_source_position c) (_receiver_position c) (_envelope_model c)
    (_envelopes c).

Definition with_source_position (x : wposition1) (c : envelope_collection) :=
  EnvelopeCollection (_envelope_freq c) (_travel_time c) (_reverb_duration c)
    (_pulse_length c) (_threshold c) (_num_azimuths c) (_num_src_beams c)
    (_num_rcv_beams c) (_initial_time c) (_slant_range c) (_source_id c)
    (_receiver_id c) x (_receiver_position c) (_envelope_model c)
    (_envelopes c).

Definition with_receiver_position (x : wposition1) (c : envelope_collection) :=
  EnvelopeCollection (_envelope_freq c) (_travel_time c) (_reverb_duration c)
    (_pulse_length c) (_threshold c) (_num_azimuths c) (_num_src_beams c)
    (_num_rcv_beams c) (_initial_time c) (_slant_range c) (_source_id c)
    (_receiver_id c) (_source_position c) x (_envelope_model c)
    (_envelopes c).

Definition with_envelopes (x : list (list (list matrix))) (c : envelope_collection) :=
  EnvelopeCollection (_envelope_freq c) (_travel_time c) (_reverb_duration c)
    (_pulse_length c) (_threshold c) (_num_azimuths c) (_num_src_beams c)
    (_num_rcv_beams c) (_initial_time c) (_slant_range c) (_source_id c)
    (_receiver_id c) (_source_position c) (_receiver_position c)
    (_envelope_model c) x.

(** [_envelopes[azimuth][src_beam][rcv_beam]], when the three indices are
    inside the arrays. *)
Definition cell (g : list (list (list matrix))) (azimuth src_beam rcv_beam : nat)
  : option matrix :=
  plane ← g !! azimuth; row ← plane !! src_beam; row !! rcv_beam.

(** ** Effects *)

(** The error taxonomy of the spec.  No method of the header throws. *)
Inductive error : Type :=
  | ShapeMismatch
  | IndexOutOfRange
  | IOFailure
  | ConfigurationError.

(** [read_lock_guard] takes the lock shared, [write_lock_guard] exclusive. *)
Inductive lock_mode : Type := Shared | Exclusive.

Inductive member : Type :=
  | Envelopes
  | InitialTime
  | SlantRange
  | SourcePosition
  | ReceiverPosition.

Inductive event : Type :=
  | Acquire (k : lock_mode)
  | Release (k : lock_mode)
  | Load (x : member)
  | Store (x : member).

Inductive outcome (A : Type) : Type :=
  | Returns (a : A) (c : envelope_collection)
  | Throws (e : error) (c : envelope_collection)
  | Undefined.
Arguments Returns {A} a c.
Arguments Throws {A} e c.
Arguments Undefined {A}.

Definition M (A : Type) : Type :=
  envelope_collection → list event * outcome A.

Definition ret {A} (a : A) : M A := λ c, ([], Returns a c).

Definition bind {A B} (m : M A) (k : A → M B) : M B := λ c,
  match m c with
  | (tr, Returns a c') => let '(tr', o) := k a c' in (tr ++ tr', o)
  | (tr, Throws e c') => (tr, Throws e c')
  | (tr, Undefined) => (tr, Undefined)
  end.

#[global] Instance M_ret : MRet M := @ret.
#[global] Instance M_bind : MBind M := λ A B k m, bind m k.

Definition throw {A} (e : error) : M A := λ c, ([], Throws e c).
Definition undefined {A} : M A := λ _, ([], Undefined).

(** Reading a [const] member leaves no trace. *)
Definition this : M envelope_collection := λ c, ([], Returns c c).

Definition load {A} (x : member) (get : envelope_collection → A) : M A :=
  λ c, ([Load x], Returns (get c) c).

Definition store (x : member) (set : envelope_collection → envelope_collection)
  : M unit :=
  λ c, ([Store x], Returns tt (set c)).

(** A lock guard in scope around [body]: the destructor releases the lock
    when [body] returns or throws. *)
Definition guarded {A} (k : lock_mode) (body : M A) : M A := λ c,
  let '(tr, o) := body c in
  (Acquire k :: tr ++ match o with Undefined => [] | _ => [Release k] end, o).

(** The object a computation leaves behind, if it ends in defined behaviour. *)
Definition final {A} (r : list event * outcome A) : option envelope_collection :=
  match r.2 with
  | Returns _ c => Some c
  | Throws _ c => Some c
  | Undefined => None
  end.

Definition trace {A} (r : list event * outcome A) : list event := r.1.

(** ** Methods defined in the header *)

Definition initial_time : M double := load InitialTime _initial_time.

Definition set_initial_time (initial_time : double) : M unit :=
  store InitialTime (with_initial_time initial_time).

Definition slant_range : M double := load SlantRange _slant_range.

Definition source_position : M wposition1 := load SourcePosition _source_position.

Definition set_source_position (position : wposition1) : M unit :=
  store SourcePosition (with_source_position position).

Definition receiver_position : M wposition1 :=
  load ReceiverPosition _receiver_position.

Definition set_receiver_position (position : wposition1) : M unit :=
  store ReceiverPosition (with_receiver_position position).

(** [*_envelopes[azimuth][src_beam][rcv_beam]] read. *)
Definition load_cell (azimuth src_beam rcv_beam : nat) : M matrix :=
  g ← load Envelopes _envelopes;
  match cell g azimuth src_beam rcv_beam with
  | Some m => ret m
  | None => undefined
  end.

(** [*_envelopes[azimuth][src_beam][rcv_beam] = m]: ublas assignment copies
    the sizes and the storage of [m]. *)
Definition store_cell (m : matrix) (azimuth src_beam rcv_beam : nat) : M unit :=
  c ← this;
  match cell (_envelopes c) azimuth src_beam rcv_beam with
  | Some _ =>
      store Envelopes
        (with_envelopes
           (alter (alter (λ row, <[rcv_beam := m]> row) src_beam) azimuth
                  (_envelopes c)))
  | None => undefined
  end.

(** [const matrix<double>& envelope(azimuth, src_beam, rcv_beam) const]. *)
Definition envelope (azimuth src_beam rcv_beam : nat) : M matrix :=
  guarded Shared (load_cell azimuth src_beam rcv_beam).

(** [void envelope(intensities, azimuth, src_beam, rcv_beam) const]. *)
Definition set_envelope (intensities : matrix) (azimuth src_beam rcv_beam : nat)
  : M unit :=
  guarded Exclusive (store_cell intensities azimuth src_beam rcv_beam).

(** ** Methods declared in the header whose bodies are not in the sources *)

Section Collaborators.

(** [distance src rcv]: the range between two positions, in meters.
    [reckoned_time t0 delta_time slant_range prev_range]: the initial time
    after dead reckoning.  Neither formula is in the sources or in the
    spec. *)
Variable distance : wposition1 → wposition1 → double.
Variable reckoned_time : double → double → double → double → double.

(** Modelled from the spec: the body of the constructor (the header has its
    signature only).  The A×S×R matrices are allocated eagerly, N_f×N_t and
    zero; a zero-length axis or a negative pulse length is a
    ConfigurationError; the slant range is the range from source to
    receiver.  [model] stands for the member [_envelope_model], whose class
    is missing. *)
Definition envelope_collection_new
    (model : envelope_model)
    (envelope_freq : seq_vector) (src_freq_first : nat)
    (travel_time : seq_vector)
    (reverb_duration pulse_length threshold : double)
    (num_azimuths num_src_beams num_rcv_beams : nat)
    (initial_time : double) (source_id receiver_id : Z)
    (src_position rcv_position : wposition1)
  : error + envelope_collection :=
  if bool_decide (length envelope_freq = 0 ∨ length travel_time = 0)
  then inl ConfigurationError
  else if Rlt_dec pulse_length 0 then inl ConfigurationError
  else inr (EnvelopeCollection envelope_freq travel_time reverb_duration
              pulse_length threshold num_azimuths num_src_beams num_rcv_beams
              initial_time (distance src_position rcv_position)
              source_id receiver_id src_position rcv_position model
              (replicate num_azimuths
                 (replicate num_src_beams
                    (replicate num_rcv_beams
                       (zero_matrix (length envelope_freq)
                                    (length travel_time)))))).

(** Modelled from the spec: the combined two-way travel time of a pair. *)
Definition combined_time (src_verb rcv_verb : eigenverb) : double :=
  (time src_verb + time rcv_verb)%R.

(** Modelled from the spec: step 1 of the contribution engine, the peak
    intensity at frequency number [f]; zero or negative scattering yields a
    zero contribution. *)
Definition peak (c : envelope_collection) (src_verb rcv_verb : eigenverb)
    (scatter : vector) (xs2 ys2 : double) (f : nat) : double :=
  match scatter !! f with
  | Some sc =>
      if Rle_dec sc 0 then 0%R
      else peak_intensity (_envelope_model c) src_verb rcv_verb sc xs2 ys2 f
  | None => 0%R
  end.

(** Modelled from the spec: step 2, the time support: the travel-time bins
    within half the width of the combined two-way travel time [t0]. *)
Definition in_support (c : envelope_collection) (t0 : double) (t : nat) : bool :=
  match _travel_time c !! t with
  | Some tm =>
      if Rle_dec (Rabs (tm - t0))
                 (half_width (_envelope_model c) (_pulse_length c))
      then true else false
  | None => false
  end.

(** Modelled from the spec: steps 1 to 4 for one entry: what the pair adds
    to row [f], column [t] of the cell of source beam [s] and receiver beam
    [r]; [None] where nothing is computed (peak below the threshold, bin
    outside the support, gain that is not positive).  Intensities are never
    negative, so only a positive gain counts as non-negligible. *)
Definition addend (c : envelope_collection) (src_verb rcv_verb : eigenverb)
    (src_beam rcv_beam : matrix) (scatter : vector) (xs2 ys2 : double)
    (s r f t : nat) : option double :=
  let t0 := combined_time src_verb rcv_verb in
  let p := peak c src_verb rcv_verb scatter xs2 ys2 f in
  if Rlt_dec p (_threshold c) then None
  else if in_support c t0 t then
    match _travel_time c !! t, elem src_beam f s, elem rcv_beam f r with
    | Some tm, Some gs, Some gr =>
        if Rle_dec (gs * gr) 0 then None
        else Some (gs * gr *
                   (p * pulse_shape (_envelope_model c) (_pulse_length c)
                                    (tm - t0)))%R
    | _, _, _ => None
    end
  else None.

(** Modelled from the spec: accumulation is addition; where nothing is
    computed the entry is not touched. *)
Definition plus_addend (d : option double) (x : double) : double :=
  match d with
  | Some y => (x + y)%R
  | None => x
  end.

(** Modelled from the spec: the matrices after [accumulate]: every cell of
    an owning azimuth receives the addend of its beam pair. *)
Definition accumulated (d : nat → nat → nat → nat → option double)
    (buckets : list nat) (g : list (list (list matrix)))
  : list (list (list matrix)) :=
  imap (λ a plane,
          if bool_decide (a ∈ buckets)
          then imap (λ s row,
                       imap (λ r m, map_entries (λ f t, plus_addend (d s r f t)) m)
                            row)
                    plane
          else plane)
       g.

(** Modelled from the spec: [accumulate], the internal operation of the
    store: one exclusive lock around the whole multi-cell update. *)
Definition accumulate (d : nat → nat → nat → nat → option double)
    (buckets : list nat) : M unit :=
  guarded Exclusive
    (g ← load Envelopes _envelopes;
     store Envelopes (with_envelopes (accumulated d buckets g))).

(** Modelled from the spec: the body of [add_contribution] (the header has
    its signature only).  Gains and scattering of the wrong shape are a
    ShapeMismatch and an owning azimuth outside the store is an
    IndexOutOfRange, both before any mutation; a pair whose combined travel
    time is outside [0, reverb_duration] is skipped. *)
Definition add_contribution (src_verb rcv_verb : eigenverb)
    (src_beam rcv_beam : matrix) (scatter : vector) (xs2 ys2 : double)
  : M unit :=
  c ← this;
  if bool_decide (size1 src_beam = length (_envelope_freq c)
                  ∧ size2 src_beam = _num_src_beams c
                  ∧ size1 rcv_beam = length (_envelope_freq c)
                  ∧ size2 rcv_beam = _num_rcv_beams c
                  ∧ length scatter = length (_envelope_freq c))
  then
    if bool_decide (Forall (λ a, a < _num_azimuths c)
                           (azimuth_buckets (_envelope_model c) rcv_verb))
    then
      if Rlt_dec (combined_time src_verb rcv_verb) 0 then mret tt
      else if Rlt_dec (_reverb_duration c) (combined_time src_verb rcv_verb)
      then mret tt
      else accumulate
             (addend c src_verb rcv_verb src_beam rcv_beam scatter xs2 ys2)
             (azimuth_buckets (_envelope_model c) rcv_verb)
    else throw IndexOutOfRange
  else throw ShapeMismatch.

(** Modelled from the spec: the body of [dead_reckon] (the header has its
    signature only).  Zero displacement changes nothing; otherwise the
    cached slant range and the initial time are updated, under the exclusive
    lock, and the matrices are left as they are. *)
Definition dead_reckon (delta_time slant_range prev_range : double) : M unit :=
  guarded Exclusive
    (if Req_dec_T delta_time 0 then mret tt
     else if Req_dec_T slant_range prev_range then mret tt
     else
       t0 ← load InitialTime _initial_time;
       store SlantRange (with_slant_range slant_range);;
       store InitialTime
         (with_initial_time
            (reckoned_time t0 delta_time slant_range prev_range))).

(** ** Sequences of calls *)

Inductive call : Type :=
  | call_envelope (azimuth src_beam rcv_beam : nat)
  | call_set_envelope (intensities : matrix) (azimuth src_beam rcv_beam : nat)
  | call_add_contribution (src_verb rcv_verb : eigenverb)
      (src_beam rcv_beam : matrix) (scatter : vector) (xs2 ys2 : double)
  | call_dead_reckon (delta_time slant_range prev_range : double)
  | call_set_initial_time (initial_time : double)
  | call_set_source_position (position : wposition1)
  | call_set_receiver_position (position : wposition1).

Definition perform (op : call) : M unit :=
  match op with
  | call_envelope a s r => envelope a s r;; mret tt
  | call_set_envelope m a s r => set_envelope m a s r
  | call_add_contribution sv rv sb rb sc xs2 ys2 =>
      add_contribution sv rv sb rb sc xs2 ys2
  | call_dead_reckon dt sr pr => dead_reckon dt sr pr
  | call_set_initial_time t => set_initial_time t
  | call_set_source_position p => set_source_position p
  | call_set_receiver_position p => set_receiver_position p
  end.

(** The caller goes on after an error; undefined behaviour ends the run. *)
Fixpoint run (ops : list call) (c : envelope_collection)
  : option envelope_collection :=
  match ops with
  | [] => Some c
  | op :: ops => c' ← final (perform op c); run ops c'
  end.

End Collaborators.

(** ** Observations on the store *)

(** Every cell has one row per envelope frequency and one column per travel
    time. *)
Definition shaped (c : envelope_collection) : Prop :=
  ∀ a s r m, cell (_envelopes c) a s r = Some m →
    size1 m = length (_envelope_freq c) ∧ size2 m = length (_travel_time c).

(** The nested arrays have the sizes the object records. *)
Definition allocated (c : envelope_collection) : Prop :=
  ∀ a s r, (a < _num_azimuths c ∧ s < _num_src_beams c ∧ r < _num_rcv_beams c)
           ↔ is_Some (cell (_envelopes c) a s r).

(** [entry c a s r f t]: the intensity at row [f], column [t] of a cell. *)
Definition entry (c : envelope_collection) (a s r f t : nat) : option double :=
  m ← cell (_envelopes c) a s r; elem m f t.

(** Whether [add_contribution] reaches [accumulate] on [c]. *)
Definition accepted (c : envelope_collection) (src_verb rcv_verb : eigenverb)
    (src_beam rcv_beam : matrix) (scatter : vector) : bool :=
  bool_decide (size1 src_beam = length (_envelope_freq c)
               ∧ size2 src_beam = _num_src_beams c
               ∧ size1 rcv_beam = length (_envelope_freq c)
               ∧ size2 rcv_beam = _num_rcv_beams c
               ∧ length scatter = length (_envelope_freq c))
  && bool_decide (Forall (λ a, a < _num_azimuths c)
                         (azimuth_buckets (_envelope_model c) rcv_verb))
  && (if Rlt_dec (combined_time src_verb rcv_verb) 0 then false
      else if Rlt_dec (_reverb_duration c) (combined_time src_verb rcv_verb)
      then false else true).

(** The object that [add_contribution] leaves behind. *)
Definition contributed (c : envelope_collection) (src_verb rcv_verb : eigenverb)
    (src_beam rcv_beam : matrix) (scatter : vector) (xs2 ys2 : double)
  : envelope_collection :=
  if accepted c src_verb rcv_verb src_beam rcv_beam scatter
  then with_envelopes
         (accumulated
            (addend c src_verb rcv_verb src_beam rcv_beam scatter xs2 ys2)
            (azimuth_buckets (_envelope_model c) rcv_verb)
            (_envelopes c))
         c
  else c.

(** ** Lock discipline of a trace *)

(** Every [Store] happens while the lock is held exclusive. *)
Fixpoint stores_exclusive (held : option lock_mode) (tr : list event) : bool :=
  match tr with
  | [] => true
  | Acquire k :: tr => stores_exclusive (Some k) tr
  | Release _ :: tr => stores_exclusive None tr
  | Load _ :: tr => stores_exclusive held tr
  | Store _ :: tr =>
      match held with
      | Some Exclusive => stores_exclusive held tr
      | _ => false
      end
  end.

(** Every [Load] happens while the lock is held, shared or exclusive. *)
Fixpoint loads_locked (held : option lock_mode) (tr : list event) : bool :=
  match tr with
  | [] => true
  | Acquire k :: tr => loads_locked (Some k) tr
  | Release _ :: tr => loads_locked None tr
  | Load _ :: tr =>
      match held with
      | Some _ => loads_locked held tr
      | None => false
      end
  | Store _ :: tr => loads_locked held tr
  end.

(** ** beam_pattern_sine *)

Module beam_pattern_sine.

Local Open Scope R_scope.

(** [beam_level(de, az, theta, phi, frequencies, level)]; the result is the
    new [*level].  [M_PI_2] is π/2.  The statement on [_mutex] that opens the
    body does not enter the value. *)
Definition beam_level (de az theta phi : double) (frequencies : vector)
  : vector :=
  let theta_prime := PI / 2 - de in
  let sint := sin (0.5 * (theta_prime - theta) + 1e-10) in
  let sinp := sin (0.5 * (az + phi) + 1e-10) in
  let dotnorm := 1.0 - 2.0 * (sint * sint
                              + sin theta_prime * sin theta * sinp * sinp) in
  scalar_vector (length frequencies) dotnorm.

(** [log10] of <cmath>. *)
Definition log10 (x : double) : double := ln x / ln 10.

(** [directivity_index(frequencies, level)]; the result is the new
    [*level]. *)
Definition directivity_index (frequencies : vector) : vector :=
  scalar_vector (length frequencies) (10.0 * log10 2.0).

End beam_pattern_sine.

(** ** Calls that keep the shape *)

(** A call of the setter conforms to [c] when its matrix has one row per
    envelope frequency and one column per travel time of [c]. *)
Definition conforming (c : envelope_collection) (op : call) : Prop :=
  match op with
  | call_set_envelope m _ _ _ =>
      size1 m = length (_envelope_freq c) ∧ size2 m = length (_travel_time c)
  | _ => True
  end.

(** ** Sequences of contributions *)

Definition is_contribution (op : call) : Prop :=
  match op with
  | call_add_contribution _ _ _ _ _ _ _ => True
  | _ => False
  end.


(** A sequence is increasing: later values are not smaller. *)
Definition increasing (v : seq_vector) : Prop :=
  ∀ i j x y, i ≤ j → v !! i = Some x → v !! j = Some y → (x <= y)%R.

(** ** A worked scenario *)

(** One azimuth, one source beam, one receiver beam, one frequency and five
    travel times, one second apart; the pulse lasts one second. *)
Definition origin : wposition1 := Wposition1 0%R 0%R 0%R.

Definition no_range : wposition1 → wposition1 → double := λ _ _, 0%R.

Definition same_time : double → double → double → double → double :=
  λ t0 _ _ _, t0.

(** An envelope model whose every peak is 0.003, flat over a support as wide
    as the pulse, owned by azimuth 0. *)
Definition flat_pulse : envelope_model.
Proof.
  refine (EnvelopeModel (λ _ _ _ _ _ _, 0.003%R) (λ _ _, 1%R)
                        (λ len, (len / 2)%R) (λ _, [0]) _ _);
    intros; lra.
Defined.

Definition scenario (threshold : double) : envelope_collection :=
  EnvelopeCollection [1000%R] [0%R; 1%R; 2%R; 3%R; 4%R] 4%R 1%R threshold
    1 1 1 0%R 0%R 1%Z 2%Z origin origin flat_pulse [[[zero_matrix 1 5]]].

(** An eigenverb that arrives after one second. *)
Definition verb : eigenverb := Eigenverb 1%R 0%R [1%R].

(** Gain matrices for one frequency and one beam. *)
Definition gain (x : double) : matrix := Matrix 1 1 [x].

(** ** Calls of the methods that the header defines *)

(** The calls whose bodies are in the header: the accessors of a cell and the
    metadata setters. *)
Definition header_call (op : call) : Prop :=
  match op with
  | call_add_contribution _ _ _ _ _ _ _ => False
  | call_dead_reckon _ _ _ => False
  | _ => True
  end.

(** The indices of a cell access are inside the extents the object records. *)
Definition indices_in_range (c : envelope_collection) (op : call) : Prop :=
  match op with
  | call_envelope a s r | call_set_envelope _ a s r =>
      a < _num_azimuths c ∧ s < _num_src_beams c ∧ r < _num_rcv_beams c
  | _ => True
  end.

(** The members that no method of the header assigns. *)
Definition same_configuration (c c' : envelope_collection) : Prop :=
  _envelope_freq c' = _envelope_freq c
  ∧ _travel_time c' = _travel_time c
  ∧ _reverb_duration c' = _reverb_duration c
  ∧ _pulse_length c' = _pulse_length c
  ∧ _threshold c' = _threshold c
  ∧ _num_azimuths c' = _num_azimuths c
  ∧ _num_src_beams c' = _num_src_beams c
  ∧ _num_rcv_beams c' = _num_rcv_beams c
  ∧ _slant_range c' = _slant_range c
  ∧ _source_id c' = _source_id c
  ∧ _receiver_id c' = _receiver_id c
  ∧ _envelope_model c' = _envelope_model c.

(** The matrix that the calls of the setter in [ops] leave in the cell
    [(a, s, r)], starting from [m0]. *)
Definition last_stored (a s r : nat) (ops : list call) (m0 : option matrix)
  : option matrix :=
  fold_left
    (λ o op,
       match op with
       | call_set_envelope m a' s' r' =>
           if decide ((a', s', r') = (a, s, r)) then Some m else o
       | _ => o
       end)
    ops m0.

(** The initial time that the calls of its setter in [ops] leave, starting
    from [t0]; likewise for the two positions. *)
Definition last_initial_time (ops : list call) (t0 : double) : double :=
  fold_left
    (λ t op, match op with call_set_initial_time t' => t' | _ => t end)
    ops t0.

Definition last_source_position (ops : list call) (p0 : wposition1)
  : wposition1 :=
  fold_left
    (λ p op, match op with call_set_source_position p' => p' | _ => p end)
    ops p0.

Definition last_receiver_position (ops : list call) (p0 : wposition1)
  : wposition1 :=
  fold_left
    (λ p op, match op with call_set_receiver_position p' => p' | _ => p end)
    ops p0.

(** ** studies/analytic_wedge: the targets of main() *)

Module analytic_wedge.

Section Targets.

(** [wposition], the grid of targets: its declaration is missing, so the
    type, [size1()], the three accessors [latitude(n, m)], [longitude(n, m)],
    [altitude(n, m)] and the setter [longitude(n, m, value)] are taken as
    given. *)
Variable wposition : Type.
Variable size1 : wposition → nat.
Variable latitude longitude altitude : wposition → nat → nat → double.
Variable set_longitude : nat → nat → double → wposition → wposition.

Definition num_targets : nat := 201.

(** Conversion factor from meters to degrees of latitude. *)
Definition m_2_deg : double := (1.0 / (1852.0 * 60.0))%R.

Definition inc : double := ((6000.0 * m_2_deg) / INR num_targets)%R.

(** The body of the loop over the cross-slope targets:
    [target.longitude(n, 0, inc * n)]. *)
Definition place_target (target : wposition) (n : nat) : wposition :=
  set_longitude n 0 (inc * INR n)%R target.

(** The loop: [for (int n = 1; n < target.size1(); ++n)]. *)
Definition place_targets (target : wposition) : wposition :=
  fold_left place_target (seq 1 (size1 target - 1)) target.

(** One line of the table "target,depth,range,intensity". *)
Record csv_line : Type := CsvLine {
  csv_target : nat;
  csv_depth : double;
  csv_range : double;
  csv_intensity : double
}.

(** The loop that writes the table; [intensity target n] stands for
    [loss.total(n, 0)->intensity(0)], the propagation loss to the targets
    as they are placed. *)
Definition table (intensity : wposition → nat → double) (target : wposition)
  : list csv_line :=
  map (λ n, CsvLine n (altitude target n 0)
                    (latitude target n 0 / m_2_deg)%R
                    (- intensity target n)%R)
      (seq 0 (size1 target)).

End Targets.

(** A grid with one column, each row a latitude, a longitude and an
    altitude: an instance of the accessors above. *)
Definition column : Type := list (double * double * double).

Definition column_latitude (w : column) (n m : nat) : double :=
  default 0%R (p ← w !! n; Some p.1.1).

Definition column_longitude (w : column) (n m : nat) : double :=
  default 0%R (p ← w !! n; Some p.1.2).

Definition column_altitude (w : column) (n m : nat) : double :=
  default 0%R (p ← w !! n; Some p.2).

Definition column_set_longitude (n m : nat) (v : double) (w : column) : column :=
  alter (λ p, (p.1.1, v, p.2)) n w.

End analytic_wedge.

(** * Properties *)

(** ** The monad and the nested arrays *)

Ltac run_monad :=
  unfold mbind, M_bind, mret, M_ret, bind, ret, this, load, store, throw,
    undefined, guarded, final, trace in *; cbn [fst snd] in *.

Ltac decide_real :=
  match goal with
  | |- context [Rlt_dec ?x ?y] =>
      destruct (Rlt_dec x y); [try (exfalso; lra)|try (exfalso; lra)]
  | |- context [Rle_dec ?x ?y] =>
      destruct (Rle_dec x y); [try (exfalso; lra)|try (exfalso; lra)]
  | |- context [Req_dec_T ?x ?y] =>
      destruct (Req_dec_T x y); [try (exfalso; lra)|try (exfalso; lra)]
  end.

Lemma cell_lookup g a s r m :
  cell g a s r = Some m ↔
  ∃ plane row, g !! a = Some plane ∧ plane !! s = Some row ∧ row !! r = Some m.
Proof.
  unfold cell. split.
  - intros H. destruct (g !! a) as [plane|] eqn:Ha; [|discriminate].
    cbn in H. destruct (plane !! s) as [row|] eqn:Hs; [|discriminate].
    cbn in H. eauto.
  - intros (plane & row & -> & Hs & Hr). cbn. rewrite Hs. cbn. exact Hr.
Qed.

Lemma cell_store g a s r m a' s' r' :
  is_Some (cell g a s r) →
  cell (alter (alter (λ row, <[r := m]> row) s) a g) a' s' r' =
  if decide ((a, s, r) = (a', s', r')) then Some m else cell g a' s' r'.
Proof.
  intros [m0 H]. apply cell_lookup in H as (plane & row & Ha & Hs & Hr).
  unfold cell. rewrite list_lookup_alter.
  destruct (decide (a = a')) as [<-|Hna].
  - rewrite Ha. cbn. rewrite list_lookup_alter.
    destruct (decide (s = s')) as [<-|Hns].
    + rewrite Hs. cbn. destruct (decide (r = r')) as [<-|Hnr].
      * rewrite decide_True by done.
        apply list_lookup_insert_eq. by eapply lookup_lt_Some.
      * rewrite decide_False by congruence.
        by apply list_lookup_insert_ne.
    + rewrite decide_False by congruence. done.
  - rewrite decide_False by congruence. done.
Qed.

Lemma envelope_run a s r c :
  envelope a s r c =
  match cell (_envelopes c) a s r with
  | Some m => ([Acquire Shared; Load Envelopes; Release Shared], Returns m c)
  | None => ([Acquire Shared; Load Envelopes], Undefined)
  end.
Proof.
  unfold envelope, load_cell. run_monad.
  destruct (cell (_envelopes c) a s r); reflexivity.
Qed.

Lemma set_envelope_run m a s r c :
  set_envelope m a s r c =
  match cell (_envelopes c) a s r with
  | Some _ =>
      ([Acquire Exclusive; Store Envelopes; Release Exclusive],
       Returns tt
         (with_envelopes
            (alter (alter (λ row, <[r := m]> row) s) a (_envelopes c)) c))
  | None => ([Acquire Exclusive], Undefined)
  end.
Proof.
  unfold set_envelope, store_cell. run_monad.
  destruct (cell (_envelopes c) a s r); reflexivity.
Qed.

Lemma scenario_allocated thr : allocated (scenario thr).
Proof.
  intros a s r. cbn. split.
  - intros (Ha & Hs & Hr).
    assert (a = 0) as -> by lia. assert (s = 0) as -> by lia.
    assert (r = 0) as -> by lia. by eexists.
  - intros [m H]. apply cell_lookup in H as (plane & row & Ha & Hs & Hr).
    apply lookup_lt_Some in Ha as Ha'. cbn in Ha'.
    assert (a = 0) as -> by lia. cbn in Ha. simplify_eq.
    apply lookup_lt_Some in Hs as Hs'. cbn in Hs'.
    assert (s = 0) as -> by lia. cbn in Hs. simplify_eq.
    apply lookup_lt_Some in Hr. cbn in Hr. lia.
Qed.

(** ** The setter *)

(** C5, as the code has it: the setter has no shape check.  On a cell inside
    the arrays it returns, whatever the shape of [m]; afterwards the cell is
    [m], with the shape of [m], every other cell is as before and so is every
    other member.  It never throws. *)
Theorem set_envelope_replaces_cell c m a s r :
  is_Some (cell (_envelopes c) a s r) →
  (∃ c',
      (set_envelope m a s r c).2 = Returns tt c'
      ∧ cell (_envelopes c') a s r = Some m
      ∧ (∀ a' s' r', (a, s, r) ≠ (a', s', r') →
           cell (_envelopes c') a' s' r' = cell (_envelopes c) a' s' r')
      ∧ with_envelopes (_envelopes c) c' = c)
  ∧ ∀ e c'', (set_envelope m a s r c).2 ≠ Throws e c''.
Proof.
  intros Hc. rewrite set_envelope_run.
  destruct Hc as [m0 Hc]. rewrite Hc. cbn. split; [|done].
  eexists. split; [done|]. cbn.
  assert (Hs : is_Some (cell (_envelopes c) a s r)) by eauto.
  repeat split.
  - rewrite cell_store by done. by rewrite decide_True.
  - intros a' s' r' Hne. rewrite cell_store by done. by rewrite decide_False.
  - by destruct c.
Qed.

Lemma set_envelope_replaces_cell_witness :
  is_Some (cell (_envelopes (scenario 0%R)) 0 0 0)
  ∧ (set_envelope (gain 7%R) 0 0 0 (scenario 0%R)).2
    ≠ Throws ShapeMismatch (scenario 0%R).
Proof.
  assert (H : is_Some (cell (_envelopes (scenario 0%R)) 0 0 0))
    by (by eexists).
  split; [exact H|].
  exact (proj2 (set_envelope_replaces_cell (scenario 0%R) (gain 7%R) 0 0 0 H)
               ShapeMismatch (scenario 0%R)).
Defined.

(** C5 fails: the store has 1×5 cells, the setter is given a 1×1 matrix; it
    returns, there is no ShapeMismatch, and the cell is now 1×1. *)
Lemma set_envelope_takes_wrong_shape :
  (size1 (gain 7%R), size2 (gain 7%R))
    ≠ (length (_envelope_freq (scenario 0%R)),
       length (_travel_time (scenario 0%R)))
  ∧ (set_envelope (gain 7%R) 0 0 0 (scenario 0%R)).2
    = Returns tt (with_envelopes [[[gain 7%R]]] (scenario 0%R))
  ∧ (set_envelope (gain 7%R) 0 0 0 (scenario 0%R)).2
    ≠ Throws ShapeMismatch (scenario 0%R)
  ∧ cell (_envelopes (scenario 0%R)) 0 0 0 = Some (zero_matrix 1 5)
  ∧ cell (_envelopes (with_envelopes [[[gain 7%R]]] (scenario 0%R))) 0 0 0
    = Some (gain 7%R).
Proof.
  rewrite set_envelope_run. cbn. repeat split; try done.
Qed.

(** ** Indices out of range *)

(** C8, as the code has it: neither accessor checks its indices.  Inside the
    bounds the getter returns the addressed cell and the setter replaces it;
    outside the bounds both end in undefined behaviour, so no
    IndexOutOfRange is reported. *)
Theorem envelope_indices_unchecked c a s r :
  allocated c →
  (a < _num_azimuths c ∧ s < _num_src_beams c ∧ r < _num_rcv_beams c →
     ∃ m, cell (_envelopes c) a s r = Some m
          ∧ (envelope a s r c).2 = Returns m c
          ∧ ∀ m', ∃ c', (set_envelope m' a s r c).2 = Returns tt c'
                        ∧ cell (_envelopes c') a s r = Some m')
  ∧ (¬ (a < _num_azimuths c ∧ s < _num_src_beams c ∧ r < _num_rcv_beams c) →
     (envelope a s r c).2 = Undefined
     ∧ ∀ m', (set_envelope m' a s r c).2 = Undefined).
Proof.
  intros Hal. split.
  - intros Hin. apply Hal in Hin as [m Hm]. exists m.
    split; [done|]. split.
    + rewrite envelope_run, Hm. done.
    + intros m'. rewrite set_envelope_run, Hm. cbn. eexists. split; [done|].
      cbn. rewrite cell_store by eauto. by rewrite decide_True.
  - intros Hout.
    assert (Hn : cell (_envelopes c) a s r = None).
    { destruct (cell (_envelopes c) a s r) eqn:E; [|done].
      exfalso. apply Hout, Hal. eauto. }
    split.
    + rewrite envelope_run, Hn. done.
    + intros m'. rewrite set_envelope_run, Hn. done.
Qed.

Lemma envelope_indices_unchecked_witness :
  allocated (scenario 0%R)
  ∧ (envelope 1 0 0 (scenario 0%R)).2 = Undefined.
Proof.
  split; [apply scenario_allocated|].
  apply (envelope_indices_unchecked (scenario 0%R) 1 0 0
           (scenario_allocated 0%R)).
  cbn. lia.
Defined.

(** C8 fails: azimuth 1 is outside a store with one azimuth; the getter and
    the setter end in undefined behaviour after taking the lock, and neither
    reports IndexOutOfRange. *)
Lemma envelope_out_of_range_undetected :
  ¬ (1 < _num_azimuths (scenario 0%R))
  ∧ envelope 1 0 0 (scenario 0%R)
    = ([Acquire Shared; Load Envelopes], Undefined)
  ∧ (envelope 1 0 0 (scenario 0%R)).2 ≠ Throws IndexOutOfRange (scenario 0%R)
  ∧ set_envelope (zero_matrix 1 5) 1 0 0 (scenario 0%R)
    = ([Acquire Exclusive], Undefined)
  ∧ (set_envelope (zero_matrix 1 5) 1 0 0 (scenario 0%R)).2
    ≠ Throws IndexOutOfRange (scenario 0%R).
Proof.
  rewrite envelope_run, set_envelope_run. cbn. repeat split; try done. lia.
Qed.

(** ** Entries under accumulation *)

Lemma elem_map_entries g m i j :
  elem (map_entries g m) i j = g i j <$> elem m i j.
Proof.
  unfold elem, map_entries. cbn.
  case_bool_decide as H; [|done].
  rewrite list_lookup_imap. destruct H as [_ Hj].
  replace ((i * size2 m + j) / size2 m) with i.
  - replace ((i * size2 m + j) mod size2 m) with j; [done|].
    rewrite Nat.add_comm, Nat.Div0.mod_add. by rewrite Nat.mod_small.
  - rewrite Nat.add_comm, Nat.div_add by lia. rewrite Nat.div_small; lia.
Qed.

Lemma cell_accumulated d buckets g a s r :
  cell (accumulated d buckets g) a s r =
  (λ m, if bool_decide (a ∈ buckets)
        then map_entries (λ f t, plus_addend (d s r f t)) m else m)
    <$> cell g a s r.
Proof.
  unfold cell, accumulated. rewrite list_lookup_imap.
  destruct (g !! a) as [plane|]; [|done]. cbn.
  case_bool_decide; [|by destruct (plane !! s) as [row|]; cbn;
                        [destruct (row !! r)|]].
  rewrite list_lookup_imap. destruct (plane !! s) as [row|]; [|done]. cbn.
  by rewrite list_lookup_imap.
Qed.

Lemma add_contribution_final c sv rv sb rb sc xs2 ys2 :
  final (add_contribution sv rv sb rb sc xs2 ys2 c)
  = Some (contributed c sv rv sb rb sc xs2 ys2).
Proof.
  unfold add_contribution, contributed, accepted, accumulate. run_monad.
  case_bool_decide; cbn; [|done]. case_bool_decide; cbn; [|done].
  destruct (Rlt_dec _ _); cbn; [done|]. destruct (Rlt_dec _ _); done.
Qed.

Lemma contributed_members c sv rv sb rb sc xs2 ys2 :
  with_envelopes (_envelopes c) (contributed c sv rv sb rb sc xs2 ys2) = c.
Proof. unfold contributed. destruct (accepted _ _ _ _ _ _); by destruct c. Qed.

Lemma entry_contributed c sv rv sb rb sc xs2 ys2 a s r f t :
  entry (contributed c sv rv sb rb sc xs2 ys2) a s r f t =
  (λ x, if accepted c sv rv sb rb sc
           && bool_decide (a ∈ azimuth_buckets (_envelope_model c) rv)
        then plus_addend (addend c sv rv sb rb sc xs2 ys2 s r f t) x
        else x)
    <$> entry c a s r f t.
Proof.
  unfold entry, contributed.
  destruct (accepted c sv rv sb rb sc); cbn.
  - rewrite cell_accumulated.
    destruct (cell (_envelopes c) a s r) as [m|]; [|done]. cbn.
    case_bool_decide; cbn; [|by destruct (elem m f t)].
    by rewrite elem_map_entries.
  - destruct (cell (_envelopes c) a s r) as [m|]; cbn; [|done].
    by destruct (elem m f t).
Qed.

Lemma dead_reckon_final rt dt sr pr c :
  final (dead_reckon rt dt sr pr c) =
  Some (if Req_dec_T dt 0 then c
        else if Req_dec_T sr pr then c
        else with_initial_time (rt (_initial_time c) dt sr pr)
               (with_slant_range sr c)).
Proof.
  unfold dead_reckon. run_monad.
  destruct (Req_dec_T dt 0); [done|]. destruct (Req_dec_T sr pr); done.
Qed.

(** ** Shape of the cells *)

Lemma shaped_same_envelopes c c' :
  _envelopes c' = _envelopes c →
  _envelope_freq c' = _envelope_freq c →
  _travel_time c' = _travel_time c →
  shaped c → shaped c'.
Proof. unfold shaped. intros -> -> ->. done. Qed.

Lemma contributed_shaped c sv rv sb rb sc xs2 ys2 :
  shaped c → shaped (contributed c sv rv sb rb sc xs2 ys2).
Proof.
  intros Hc. unfold contributed. destruct (accepted _ _ _ _ _ _); [|done].
  intros a s r m. cbn. rewrite cell_accumulated.
  destruct (cell (_envelopes c) a s r) as [m0|] eqn:E; [|done].
  cbn. intros [= <-]. apply Hc in E. by case_bool_decide.
Qed.

Lemma perform_shaped rt op c c' :
  shaped c → conforming c op → final (perform rt op c) = Some c' →
  shaped c'
  ∧ _envelope_freq c' = _envelope_freq c
  ∧ _travel_time c' = _travel_time c.
Proof.
  intros Hc Hop.
  destruct op as [a s r|m a s r|sv rv sb rb sc xs2 ys2|dt sr pr|t|p|p];
    cbn [perform].
  - unfold mbind, M_bind, bind. rewrite envelope_run.
    destruct (cell _ _ _ _); cbn; [|done]. by intros [= <-].
  - rewrite set_envelope_run.
    destruct (cell (_envelopes c) a s r) eqn:E; [|done].
    cbn. intros [= <-]. split; [|done].
    intros a' s' r' m'. cbn. rewrite cell_store by eauto.
    case_decide; [|apply Hc]. by intros [= <-].
  - rewrite add_contribution_final. intros [= <-].
    split; [by apply contributed_shaped|].
    unfold contributed. by destruct (accepted _ _ _ _ _ _).
  - rewrite dead_reckon_final. intros [= <-].
    destruct (Req_dec_T _ _); [done|]. destruct (Req_dec_T _ _); done.
  - cbn. by intros [= <-].
  - cbn. by intros [= <-].
  - cbn. by intros [= <-].
Qed.

Lemma run_shaped rt ops : ∀ c c',
  shaped c → Forall (conforming c) ops → run rt ops c = Some c' →
  shaped c'
  ∧ _envelope_freq c' = _envelope_freq c
  ∧ _travel_time c' = _travel_time c.
Proof.
  induction ops as [|op ops IH]; intros c c' Hc Hops; cbn.
  - by intros [= <-].
  - apply Forall_cons in Hops as [Hop Hops].
    destruct (final (perform rt op c)) as [c1|] eqn:E; [|done]. cbn.
    intros Hrun.
    destruct (perform_shaped rt op c c1 Hc Hop E) as (H1 & Hf & Ht).
    apply IH in Hrun as (H2 & Hf' & Ht'); [by rewrite Hf', Ht'| done |].
    eapply Forall_impl; [exact Hops|].
    intros []; cbn; by rewrite ?Hf, ?Ht.
Qed.

Lemma new_shaped dist model freq first tt dur len thr na ns nr t0 sid rid sp rp c :
  envelope_collection_new dist model freq first tt dur len thr na ns nr t0
    sid rid sp rp = inr c →
  shaped c ∧ allocated c
  ∧ _envelope_freq c = freq ∧ _travel_time c = tt
  ∧ _num_azimuths c = na ∧ _num_src_beams c = ns ∧ _num_rcv_beams c = nr.
Proof.
  unfold envelope_collection_new. case_bool_decide; [done|].
  destruct (Rlt_dec len 0); [done|]. intros [= <-]. cbn.
  assert (Hcell : ∀ a s r m,
    cell (replicate na (replicate ns (replicate nr
            (zero_matrix (length freq) (length tt))))) a s r = Some m
    ↔ (a < na ∧ s < ns ∧ r < nr) ∧ m = zero_matrix (length freq) (length tt)).
  { intros a s r m. rewrite cell_lookup. split.
    - intros (plane & row & Ha & Hs & Hr).
      apply lookup_replicate in Ha as [-> Ha].
      apply lookup_replicate in Hs as [-> Hs].
      apply lookup_replicate in Hr as [-> Hr]. done.
    - intros ((Ha & Hs & Hr) & ->). do 2 eexists.
      repeat split; by apply lookup_replicate. }
  split; [|split; [|done]].
  - intros a s r m Hm. apply Hcell in Hm as [_ ->]. done.
  - intros a s r. split.
    + intros Hin. eexists. apply Hcell. done.
    + intros [m Hm]. apply Hcell in Hm. tauto.
Qed.

Lemma scenario_constructed thr :
  envelope_collection_new no_range flat_pulse [1000%R] 0
    [0%R; 1%R; 2%R; 3%R; 4%R] 4%R 1%R thr 1 1 1 0%R 1%Z 2%Z origin origin
  = inr (scenario thr).
Proof.
  unfold envelope_collection_new. cbn.
  destruct (Rlt_dec 1 0) as [H|_]; [exfalso; lra|]. reflexivity.
Qed.

(** C1, as the code has it: the cells of a constructed store keep N_f rows
    and N_t columns through every sequence of calls (getter, setter,
    add_contribution, dead_reckon, metadata setters) in which each matrix
    handed to the setter is itself N_f×N_t; the axes do not change either.
    Every point of the lifecycle is the end of such a sequence. *)
Theorem shape_kept_by_conforming_calls
    dist rt model freq first tt dur len thr na ns nr t0 sid rid sp rp c ops c' :
  envelope_collection_new dist model freq first tt dur len thr na ns nr t0
    sid rid sp rp = inr c →
  Forall (conforming c) ops →
  run rt ops c = Some c' →
  shaped c' ∧ _envelope_freq c' = freq ∧ _travel_time c' = tt.
Proof.
  intros Hnew Hops Hrun.
  apply new_shaped in Hnew as (Hs & _ & Hf & Ht & _).
  destruct (run_shaped rt ops c c' Hs Hops Hrun) as (H1 & H2 & H3).
  by rewrite H2, H3.
Qed.

Lemma shape_kept_by_conforming_calls_witness :
  shaped (with_envelopes [[[zero_matrix 1 5]]] (scenario 0%R)).
Proof.
  refine (proj1 (shape_kept_by_conforming_calls no_range same_time flat_pulse
            [1000%R] 0 [0%R; 1%R; 2%R; 3%R; 4%R] 4%R 1%R 0%R 1 1 1 0%R 1%Z 2%Z
            origin origin (scenario 0%R)
            [call_set_envelope (zero_matrix 1 5) 0 0 0; call_envelope 0 0 0]
            _ (scenario_constructed 0%R) _ _)).
  - repeat constructor.
  - reflexivity.
Defined.

(** C1 fails: on a constructed store with 1×5 cells the setter is given a
    1×1 matrix, and the cell is 1×1 afterwards. *)
Lemma shape_lost_by_setter :
  envelope_collection_new no_range flat_pulse [1000%R] 0
    [0%R; 1%R; 2%R; 3%R; 4%R] 4%R 1%R 0%R 1 1 1 0%R 1%Z 2%Z origin origin
  = inr (scenario 0%R)
  ∧ run same_time [call_set_envelope (gain 7%R) 0 0 0] (scenario 0%R)
    = Some (with_envelopes [[[gain 7%R]]] (scenario 0%R))
  ∧ ¬ shaped (with_envelopes [[[gain 7%R]]] (scenario 0%R)).
Proof.
  split; [apply scenario_constructed|]. split; [reflexivity|].
  intros H. specialize (H 0 0 0 (gain 7%R) eq_refl). cbn in H. lia.
Qed.

(** ** Dead reckoning *)

(** C3: [dead_reckon] always ends in defined behaviour and never changes a
    matrix; with [delta_time = 0] or [slant_range = prev_range] it changes
    nothing at all. *)
Theorem dead_reckon_keeps_intensities rt delta_time slant_range prev_range c :
  ∃ c', final (dead_reckon rt delta_time slant_range prev_range c) = Some c'
        ∧ _envelopes c' = _envelopes c
        ∧ (delta_time = 0%R ∨ slant_range = prev_range → c' = c).
Proof.
  rewrite dead_reckon_final. eexists. split; [done|].
  destruct (Req_dec_T delta_time 0) as [|Hd]; [done|].
  destruct (Req_dec_T slant_range prev_range) as [|Hr]; [done|].
  split; [done|]. intros [|]; done.
Qed.

Lemma dead_reckon_keeps_intensities_witness :
  final (dead_reckon same_time 0%R 2%R 3%R (scenario 0%R)) = Some (scenario 0%R).
Proof.
  destruct (dead_reckon_keeps_intensities same_time 0%R 2%R 3%R (scenario 0%R))
    as (c' & Hf & _ & Hz).
  rewrite Hf. f_equal. apply Hz. left. reflexivity.
Defined.

(** ** Locks *)

Lemma add_contribution_trace sv rv sb rb sc xs2 ys2 c :
  trace (add_contribution sv rv sb rb sc xs2 ys2 c) = []
  ∨ trace (add_contribution sv rv sb rb sc xs2 ys2 c)
    = [Acquire Exclusive; Load Envelopes; Store Envelopes; Release Exclusive].
Proof.
  unfold add_contribution, accumulate. run_monad.
  case_bool_decide; cbn; [|by left]. case_bool_decide; cbn; [|by left].
  destruct (Rlt_dec _ _); cbn; [by left|].
  destruct (Rlt_dec _ _); cbn; [by left|by right].
Qed.

Lemma dead_reckon_trace rt dt sr pr c :
  trace (dead_reckon rt dt sr pr c) = [Acquire Exclusive; Release Exclusive]
  ∨ trace (dead_reckon rt dt sr pr c)
    = [Acquire Exclusive; Load InitialTime; Store SlantRange;
       Store InitialTime; Release Exclusive].
Proof.
  unfold dead_reckon. run_monad.
  destruct (Req_dec_T dt 0); cbn; [by left|].
  destruct (Req_dec_T sr pr); cbn; [by left|by right].
Qed.

(** C9, as the code has it: [_envelopes_mutex] guards the matrices only.  The
    setter of a cell, [add_contribution] and [dead_reckon] store under the
    exclusive lock and the getter of a cell loads under the shared lock; the
    setters of the initial time and of the two positions store without
    taking any lock. *)
Theorem envelopes_mutex_guards_matrices_only :
  (∀ m a s r c, stores_exclusive None (trace (set_envelope m a s r c)) = true)
  ∧ (∀ sv rv sb rb sc xs2 ys2 c,
       stores_exclusive None
         (trace (add_contribution sv rv sb rb sc xs2 ys2 c)) = true)
  ∧ (∀ rt dt sr pr c,
       stores_exclusive None (trace (dead_reckon rt dt sr pr c)) = true)
  ∧ (∀ a s r c,
       loads_locked None (trace (envelope a s r c)) = true
       ∧ head (trace (envelope a s r c)) = Some (Acquire Shared))
  ∧ (∀ t c, trace (set_initial_time t c) = [Store InitialTime])
  ∧ (∀ p c, trace (set_source_position p c) = [Store SourcePosition])
  ∧ (∀ p c, trace (set_receiver_position p c) = [Store ReceiverPosition])
  ∧ (∀ x, stores_exclusive None [Store x] = false).
Proof.
  repeat split; try done.
  - intros. rewrite set_envelope_run. by destruct (cell _ _ _ _).
  - intros. by destruct (add_contribution_trace sv rv sb rb sc xs2 ys2 c)
      as [-> | ->].
  - intros. by destruct (dead_reckon_trace rt dt sr pr c) as [-> | ->].
  - rewrite envelope_run. by destruct (cell _ _ _ _).
  - rewrite envelope_run. by destruct (cell _ _ _ _).
Qed.

(** C9 fails: the three metadata setters change the object without an
    exclusive lock; their traces hold the store and nothing else. *)
Lemma metadata_setters_take_no_lock :
  trace (set_initial_time 1%R (scenario 0%R)) = [Store InitialTime]
  ∧ stores_exclusive None (trace (set_initial_time 1%R (scenario 0%R))) = false
  ∧ stores_exclusive None (trace (set_source_position origin (scenario 0%R)))
    = false
  ∧ stores_exclusive None (trace (set_receiver_position origin (scenario 0%R)))
    = false.
Proof. repeat split. Qed.

(** ** The sine beam pattern *)

Section BeamLevel.

Import beam_pattern_sine.
Local Open Scope R_scope.

Lemma double_cos_square_above_one :
  1 < 2 * (cos 1e-10 * cos 1e-10).
Proof.
  assert (H : 0 < cos (2 * 1e-10)).
  { apply cos_gt_0; pose proof PI2_1; lra. }
  rewrite cos_2a_cos in H. lra.
Qed.

(** C10: every entry of the level vector is the same number, the one the
    formula gives; the frequencies enter through their count only; the
    number is negative at elevation -π/2 with the beam steered to zero. *)
Theorem beam_level_constant_and_signed :
  (∀ de az theta phi frequencies,
     let theta_prime := PI / 2 - de in
     beam_level de az theta phi frequencies
     = replicate (length frequencies)
         (1 - 2 * (sin (0.5 * (theta_prime - theta) + 1e-10) ^ 2
                   + sin theta_prime * sin theta
                     * sin (0.5 * (az + phi) + 1e-10) ^ 2)))
  ∧ (∀ de az theta phi f1 f2,
       length f1 = length f2 →
       beam_level de az theta phi f1 = beam_level de az theta phi f2)
  ∧ (∀ de az theta phi frequencies,
       length (beam_level de az theta phi frequencies)
       = length frequencies)
  ∧ (∃ de az theta phi x,
       x < 0
       ∧ ∀ frequencies,
           beam_level de az theta phi frequencies
           = replicate (length frequencies) x).
Proof.
  split; [|split; [|split]].
  - intros. unfold beam_level, scalar_vector. f_equal.
    subst theta_prime. cbn [pow]. lra.
  - intros de az theta phi f1 f2 H. unfold beam_level. by rewrite H.
  - intros. unfold beam_level, scalar_vector. apply length_replicate.
  - exists (- (PI / 2)), 0, 0, 0. eexists. split; [|reflexivity].
    replace (0.5 * (PI / 2 - - (PI / 2) - 0) + 1e-10)
      with (PI / 2 + 1e-10) by lra.
    rewrite <- cos_sin, sin_0.
    pose proof double_cos_square_above_one. lra.
Qed.

Lemma beam_level_constant_and_signed_witness :
  beam_level 0 0 0 0 [100; 200] = beam_level 0 0 0 0 [3000; 4000].
Proof.
  apply (proj1 (proj2 beam_level_constant_and_signed)). reflexivity.
Defined.

End BeamLevel.

(** ** Contributions *)

Lemma map_entries_id g m :
  well_formed m →
  (∀ i j x, i < size1 m → j < size2 m → g i j x = x) →
  map_entries g m = m.
Proof.
  intros Hwf Hg. destruct m as [n1 n2 d]. unfold map_entries, well_formed in *.
  cbn in *. f_equal.
  transitivity (imap (λ _ x, x) d).
  - apply imap_ext. intros k x Hk. apply lookup_lt_Some in Hk.
    rewrite Hwf in Hk.
    assert (n2 ≠ 0) by (intros ->; lia).
    apply Hg.
    + apply Nat.Div0.div_lt_upper_bound. lia.
    + by apply Nat.mod_upper_bound.
  - clear. induction d as [|x d IH]; [done|]. cbn. f_equal. apply IH.
Qed.

Lemma zero_matrix_well_formed n1 n2 : well_formed (zero_matrix n1 n2).
Proof. unfold well_formed, zero_matrix. cbn. apply length_replicate. Qed.

Lemma addend_below_threshold c sv rv sb rb sc xs2 ys2 s r f t :
  (peak c sv rv sc xs2 ys2 f < _threshold c)%R →
  addend c sv rv sb rb sc xs2 ys2 s r f t = None.
Proof. intros H. unfold addend. by destruct (Rlt_dec _ _). Qed.

Lemma addend_outside_support c sv rv sb rb sc xs2 ys2 s r f t :
  in_support c (combined_time sv rv) t = false →
  addend c sv rv sb rb sc xs2 ys2 s r f t = None.
Proof.
  intros H. unfold addend. rewrite H. by destruct (Rlt_dec _ _).
Qed.

(** C2: [add_contribution] always ends in defined behaviour; at a frequency
    whose peak is below the threshold it changes no entry of any cell; and
    when every frequency is below the threshold, a cell that was zero is
    zero afterwards. *)
Theorem below_threshold_adds_nothing c sv rv sb rb sc xs2 ys2 :
  ∃ c', final (add_contribution sv rv sb rb sc xs2 ys2 c) = Some c'
    ∧ (∀ f, (peak c sv rv sc xs2 ys2 f < _threshold c)%R →
         ∀ a s r t, entry c' a s r f t = entry c a s r f t)
    ∧ ((∀ f, f < length (_envelope_freq c) →
             (peak c sv rv sc xs2 ys2 f < _threshold c)%R) →
       ∀ a s r,
         cell (_envelopes c) a s r
         = Some (zero_matrix (length (_envelope_freq c))
                             (length (_travel_time c))) →
         cell (_envelopes c') a s r
         = Some (zero_matrix (length (_envelope_freq c))
                             (length (_travel_time c)))).
Proof.
  rewrite add_contribution_final. eexists. split; [done|]. split.
  - intros f Hf a s r t. rewrite entry_contributed.
    rewrite addend_below_threshold by done. cbn.
    destruct (entry c a s r f t); cbn; [|done]. by destruct (_ && _).
  - intros Hall a s r Hz. unfold contributed.
    destruct (accepted _ _ _ _ _ _); [|done]. cbn.
    rewrite cell_accumulated, Hz. cbn. case_bool_decide; [|done].
    f_equal. apply map_entries_id; [apply zero_matrix_well_formed|].
    cbn. intros i j x Hi _. by rewrite addend_below_threshold by auto.
Qed.

Lemma scenario_peak thr :
  peak (scenario thr) verb verb [1%R] 0%R 0%R 0 = 0.003%R.
Proof. unfold peak. cbn. decide_real. reflexivity. Qed.

Lemma scenario_support thr t :
  in_support (scenario thr) (combined_time verb verb) t
  = bool_decide (t = 2).
Proof.
  unfold in_support, combined_time. cbn.
  do 5 (destruct t as [|t]; cbn;
        [unfold Rabs; destruct (Rcase_abs _); decide_real; reflexivity|]).
  reflexivity.
Qed.

Lemma scenario_accepted thr gs gr :
  accepted (scenario thr) verb verb (gain gs) (gain gr) [1%R] = true.
Proof.
  unfold accepted, combined_time. cbn.
  repeat decide_real. reflexivity.
Qed.

Lemma elem_gain x : elem (gain x) 0 0 = Some x.
Proof. unfold elem, gain. cbn. by rewrite bool_decide_eq_true_2 by lia. Qed.

Lemma scenario_addend thr gs gr t :
  (thr <= 0.003)%R → (0 < gs * gr)%R →
  addend (scenario thr) verb verb (gain gs) (gain gr) [1%R] 0%R 0%R 0 0 0 t
  = if bool_decide (t = 2) then Some (gs * gr * 0.003)%R else None.
Proof.
  intros Hthr Hg. case_bool_decide as Ht.
  - subst t. unfold addend. rewrite scenario_peak, scenario_support. cbn.
    decide_real. rewrite bool_decide_eq_true_2, !elem_gain by done.
    decide_real. f_equal. lra.
  - apply addend_outside_support. rewrite scenario_support.
    by rewrite bool_decide_eq_false.
Qed.

Lemma scenario_contributed_on thr gs gr x0 x1 x2 x3 x4 :
  (thr <= 0.003)%R → (0 < gs * gr)%R →
  contributed
    (with_envelopes [[[Matrix 1 5 [x0; x1; x2; x3; x4]]]] (scenario thr))
    verb verb (gain gs) (gain gr) [1%R] 0%R 0%R
  = with_envelopes
      [[[Matrix 1 5 [x0; x1; (x2 + gs * gr * 0.003)%R; x3; x4]]]]
      (scenario thr).
Proof.
  intros Hthr Hg. unfold contributed.
  change (accepted (with_envelopes ?g (scenario thr)))
    with (accepted (scenario thr)).
  change (addend (with_envelopes ?g (scenario thr)))
    with (addend (scenario thr)).
  rewrite scenario_accepted.
  unfold with_envelopes at 1 3. cbn [_envelope_freq _travel_time
    _reverb_duration _pulse_length _threshold _num_azimuths _num_src_beams
    _num_rcv_beams _initial_time _slant_range _source_id _receiver_id
    _source_position _receiver_position _envelope_model _envelopes].
  unfold with_envelopes. f_equal.
  unfold accumulated, map_entries. cbn.
  rewrite !scenario_addend by done.
  rewrite (bool_decide_eq_true_2 (0 ∈ [0])) by constructor.
  rewrite (bool_decide_eq_true_2 (2 = 2)) by done.
  rewrite !bool_decide_eq_false_2 by lia. reflexivity.
Qed.

Lemma scenario_contributed thr gs gr :
  (thr <= 0.003)%R → (0 < gs * gr)%R →
  contributed (scenario thr) verb verb (gain gs) (gain gr) [1%R] 0%R 0%R
  = with_envelopes
      [[[Matrix 1 5 [0%R; 0%R; (0 + gs * gr * 0.003)%R; 0%R; 0%R]]]]
      (scenario thr).
Proof.
  intros Hthr Hg.
  exact (scenario_contributed_on thr gs gr 0%R 0%R 0%R 0%R 0%R Hthr Hg).
Qed.

Lemma below_threshold_adds_nothing_witness :
  ∃ c', final (add_contribution verb verb (gain 1%R) (gain 1%R) [1%R] 0%R 0%R
                 (scenario 0.004%R)) = Some c'
        ∧ cell (_envelopes c') 0 0 0 = Some (zero_matrix 1 5).
Proof.
  destruct (below_threshold_adds_nothing (scenario 0.004%R) verb verb
              (gain 1%R) (gain 1%R) [1%R] 0%R 0%R) as (c' & Hf & _ & Hz).
  exists c'. split; [exact Hf|]. apply Hz; [|reflexivity].
  intros f Hlt. cbn in Hlt. assert (f = 0) as -> by lia.
  rewrite scenario_peak. cbn. lra.
Defined.

Lemma in_support_window c t0 t :
  in_support c t0 t = true ↔
  ∃ tm, _travel_time c !! t = Some tm
        ∧ (Rabs (tm - t0)
           <= half_width (_envelope_model c) (_pulse_length c))%R.
Proof.
  unfold in_support. destruct (_travel_time c !! t) as [tm|].
  - destruct (Rle_dec _ _) as [H|H].
    + split; [eauto|done].
    + split; [done|]. intros (tm' & [= <-] & H'). done.
  - split; [done|]. intros (tm' & [=] & _).
Qed.

Lemma in_support_contiguous c t0 t1 t2 t3 :
  increasing (_travel_time c) → t1 ≤ t2 → t2 ≤ t3 →
  in_support c t0 t1 = true → in_support c t0 t3 = true →
  in_support c t0 t2 = true.
Proof.
  intros Hinc H12 H23.
  rewrite !in_support_window.
  intros (x1 & Hx1 & Hw1) (x3 & Hx3 & Hw3).
  destruct (lookup_lt_is_Some_2 (_travel_time c) t2) as [x2 Hx2].
  { apply lookup_lt_Some in Hx3. eapply Nat.le_lt_trans; [exact H23|exact Hx3]. }
  exists x2. split; [done|].
  pose proof (Hinc t1 t2 x1 x2 H12 Hx1 Hx2).
  pose proof (Hinc t2 t3 x2 x3 H23 Hx2 Hx3).
  revert Hw1 Hw3. unfold Rabs.
  repeat destruct (Rcase_abs _); lra.
Qed.

Lemma scenario_increasing thr : increasing (_travel_time (scenario thr)).
Proof.
  intros i j x y Hij Hi Hj. cbn in Hi, Hj.
  do 5 (destruct i as [|i]; [cbn in Hi;
    do 5 (destruct j as [|j]; [cbn in Hj; simplify_eq; try lia; lra|]);
    cbn in Hj; discriminate|]).
  cbn in Hi. discriminate.
Qed.

Lemma addend_in_support c sv rv sb rb sc xs2 ys2 s r f t tm gs gr :
  ¬ (peak c sv rv sc xs2 ys2 f < _threshold c)%R →
  in_support c (combined_time sv rv) t = true →
  _travel_time c !! t = Some tm →
  elem sb f s = Some gs → elem rb f r = Some gr → (0 < gs * gr)%R →
  addend c sv rv sb rb sc xs2 ys2 s r f t
  = Some (gs * gr *
          (peak c sv rv sc xs2 ys2 f
           * pulse_shape (_envelope_model c) (_pulse_length c)
                         (tm - combined_time sv rv)))%R.
Proof.
  intros Hp Hs Ht Hgs Hgr Hg. unfold addend.
  destruct (Rlt_dec _ _); [done|]. rewrite Hs, Ht, Hgs, Hgr.
  destruct (Rle_dec _ _); [lra|done].
Qed.

(** C6: a contribution reaches no bin outside its time support, the bins
    whose travel time is within half the width (set by the pulse length) of
    the combined two-way travel time; inside the support, at a frequency at
    or above the threshold and a beam pair of positive gain, it adds the
    gain times the peak times the pulse shape to the entry of every owning
    azimuth; on an increasing travel-time axis the support is a contiguous
    range of bins.  In the scenario (one cell, one frequency, five bins,
    threshold 1e-12) the peak of 0.003 lands in bin 2 and the matrices of the
    store, and what the getter returns, are [0, 0, 0.003, 0, 0]. *)
Theorem contribution_support_bounded :
  (∀ c sv rv sb rb sc xs2 ys2,
     (∃ c', final (add_contribution sv rv sb rb sc xs2 ys2 c) = Some c'
        ∧ (∀ a s r f t,
             in_support c (combined_time sv rv) t = false →
             entry c' a s r f t = entry c a s r f t)
        ∧ (∀ a s r f t tm gs gr,
             accepted c sv rv sb rb sc = true →
             a ∈ azimuth_buckets (_envelope_model c) rv →
             ¬ (peak c sv rv sc xs2 ys2 f < _threshold c)%R →
             in_support c (combined_time sv rv) t = true →
             _travel_time c !! t = Some tm →
             elem sb f s = Some gs → elem rb f r = Some gr →
             (0 < gs * gr)%R →
             entry c' a s r f t
             = (λ x, x + gs * gr *
                       (peak c sv rv sc xs2 ys2 f
                        * pulse_shape (_envelope_model c) (_pulse_length c)
                                      (tm - combined_time sv rv)))%R
                 <$> entry c a s r f t))
     ∧ (∀ t, in_support c (combined_time sv rv) t = true ↔
             ∃ tm, _travel_time c !! t = Some tm
                   ∧ (Rabs (tm - combined_time sv rv)
                      <= half_width (_envelope_model c) (_pulse_length c))%R)
     ∧ (increasing (_travel_time c) →
        ∀ t1 t2 t3, t1 ≤ t2 → t2 ≤ t3 →
          in_support c (combined_time sv rv) t1 = true →
          in_support c (combined_time sv rv) t3 = true →
          in_support c (combined_time sv rv) t2 = true))
  ∧ peak (scenario 1e-12%R) verb verb [1%R] 0%R 0%R 0 = 0.003%R
  ∧ (∀ t, in_support (scenario 1e-12%R) (combined_time verb verb) t
          = bool_decide (t = 2))
  ∧ (∃ c', final (add_contribution verb verb (gain 1%R) (gain 1%R) [1%R]
                    0%R 0%R (scenario 1e-12%R)) = Some c'
           ∧ _envelopes c'
             = [[[Matrix 1 5 [0%R; 0%R; 0.003%R; 0%R; 0%R]]]]
           ∧ (envelope 0 0 0 c').2
             = Returns (Matrix 1 5 [0%R; 0%R; 0.003%R; 0%R; 0%R]) c').
Proof.
  split; [|split; [|split]].
  - intros. split; [|split].
    + rewrite add_contribution_final. eexists. split; [done|]. split.
      * intros a s r f t Ht. rewrite entry_contributed.
        rewrite addend_outside_support by done. cbn.
        destruct (entry c a s r f t); cbn; [|done]. by destruct (_ && _).
      * intros a s r f t tm gs gr Hacc Ha Hp Hs Ht Hgs Hgr Hg.
        rewrite entry_contributed, Hacc, bool_decide_eq_true_2 by done.
        by rewrite (addend_in_support _ _ _ _ _ _ _ _ _ _ _ _ tm gs gr).
    + intros t. apply in_support_window.
    + intros Hinc t1 t2 t3. by apply in_support_contiguous.
  - apply scenario_peak.
  - apply scenario_support.
  - rewrite add_contribution_final, scenario_contributed by lra.
    eexists. split; [done|].
    assert (E : (0 + 1 * 1 * 0.003)%R = 0.003%R) by lra.
    split.
    + cbn. by rewrite E.
    + rewrite envelope_run. cbn. by rewrite E.
Qed.

Lemma contribution_support_bounded_witness :
  increasing (_travel_time (scenario 1e-12%R))
  ∧ in_support (scenario 1e-12%R) (combined_time verb verb) 4 = false
  ∧ ∃ c', final (add_contribution verb verb (gain 1%R) (gain 1%R) [1%R]
                   0%R 0%R (scenario 1e-12%R)) = Some c'
          ∧ entry c' 0 0 0 0 4 = entry (scenario 1e-12%R) 0 0 0 0 4
          ∧ entry c' 0 0 0 0 2
            = (λ x, x + 1 * 1 *
                      (peak (scenario 1e-12%R) verb verb [1%R] 0%R 0%R 0
                       * pulse_shape flat_pulse 1 (2 - combined_time verb verb)))%R
                <$> entry (scenario 1e-12%R) 0 0 0 0 2
          ∧ in_support (scenario 1e-12%R) (combined_time verb verb) 2 = true.
Proof.
  split; [apply scenario_increasing|].
  split; [by rewrite scenario_support|].
  destruct (proj1 contribution_support_bounded (scenario 1e-12%R)
              verb verb (gain 1%R) (gain 1%R) [1%R] 0%R 0%R)
    as ((c' & Hf & Hout & Hin) & _ & Hrange).
  exists c'. split; [exact Hf|]. split; [|split].
  - apply Hout. by rewrite scenario_support.
  - apply (Hin 0 0 0 0 2 2%R 1%R 1%R).
    + apply scenario_accepted.
    + apply list_elem_of_here.
    + rewrite scenario_peak.
      change (_threshold (scenario 1e-12%R)) with 1e-12%R. lra.
    + by rewrite scenario_support.
    + reflexivity.
    + apply elem_gain.
    + apply elem_gain.
    + lra.
  - apply (Hrange (scenario_increasing _) 2 2 2);
      [lia|lia|by rewrite scenario_support..].
Defined.

(** ** Sign of the contributions *)









(** ** Order of the contributions *)

Lemma imap_imap {A B C} (f : nat → B → C) (g : nat → A → B) (l : list A) :
  imap f (imap g l) = imap (λ i x, f i (g i x)) l.
Proof.
  revert f g. induction l as [|x l IH]; intros f g; [done|].
  cbn. f_equal. apply IH.
Qed.

Lemma map_entries_comm g1 g2 m :
  (∀ i j x, g1 i j (g2 i j x) = g2 i j (g1 i j x)) →
  map_entries g1 (map_entries g2 m) = map_entries g2 (map_entries g1 m).
Proof.
  intros H. unfold map_entries. cbn. f_equal.
  rewrite !imap_imap. apply imap_ext. intros k x _. apply H.
Qed.

Lemma accumulated_comm d1 b1 d2 b2 g :
  accumulated d1 b1 (accumulated d2 b2 g)
  = accumulated d2 b2 (accumulated d1 b1 g).
Proof.
  unfold accumulated. rewrite !imap_imap.
  apply imap_ext. intros a plane _.
  do 2 case_bool_decide; try done.
  rewrite !imap_imap. apply imap_ext. intros s row _.
  rewrite !imap_imap. apply imap_ext. intros r m _.
  apply map_entries_comm. intros f t x. unfold plus_addend.
  destruct (d1 s r f t), (d2 s r f t); lra.
Qed.

Lemma contributed_comm c sv1 rv1 sb1 rb1 sc1 xs1 ys1 sv2 rv2 sb2 rb2 sc2 xs2 ys2 :
  contributed (contributed c sv1 rv1 sb1 rb1 sc1 xs1 ys1)
              sv2 rv2 sb2 rb2 sc2 xs2 ys2
  = contributed (contributed c sv2 rv2 sb2 rb2 sc2 xs2 ys2)
                sv1 rv1 sb1 rb1 sc1 xs1 ys1.
Proof.
  unfold contributed.
  destruct (accepted c sv1 rv1 sb1 rb1 sc1) eqn:E1;
    destruct (accepted c sv2 rv2 sb2 rb2 sc2) eqn:E2.
  - change (accepted (with_envelopes ?g c) sv2 rv2 sb2 rb2 sc2)
      with (accepted c sv2 rv2 sb2 rb2 sc2).
    change (accepted (with_envelopes ?g c) sv1 rv1 sb1 rb1 sc1)
      with (accepted c sv1 rv1 sb1 rb1 sc1).
    rewrite E1, E2. unfold with_envelopes. cbn. f_equal.
    apply accumulated_comm.
  - change (accepted (with_envelopes ?g c) sv2 rv2 sb2 rb2 sc2)
      with (accepted c sv2 rv2 sb2 rb2 sc2).
    by rewrite ?E1, ?E2.
  - change (accepted (with_envelopes ?g c) sv1 rv1 sb1 rb1 sc1)
      with (accepted c sv1 rv1 sb1 rb1 sc1).
    by rewrite ?E1, ?E2.
  - by rewrite ?E1, ?E2.
Qed.

Lemma run_contribution rt sv rv sb rb sc xs2 ys2 ops c :
  run rt (call_add_contribution sv rv sb rb sc xs2 ys2 :: ops) c
  = run rt ops (contributed c sv rv sb rb sc xs2 ys2).
Proof. cbn [run perform]. by rewrite add_contribution_final. Qed.

Lemma run_contributions_total rt ops : ∀ c,
  Forall is_contribution ops → is_Some (run rt ops c).
Proof.
  induction ops as [|op ops IH]; intros c Hops; [by eexists|].
  apply Forall_cons in Hops as [Hop Hops].
  destruct op; try done. rewrite run_contribution. by apply IH.
Qed.

Lemma run_permutation rt ops ops' :
  ops ≡ₚ ops' → Forall is_contribution ops →
  ∀ c, run rt ops c = run rt ops' c.
Proof.
  induction 1 as [|op ops ops' Hp IH|op1 op2 ops|ops1 ops2 ops3 Hp1 IH1 Hp2 IH2];
    intros Hall c.
  - done.
  - apply Forall_cons in Hall as [Hop Hall].
    destruct op; try done. rewrite !run_contribution. by apply IH.
  - apply Forall_cons in Hall as [Hop2 Hall].
    apply Forall_cons in Hall as [Hop1 Hall].
    destruct op1; try done. destruct op2; try done.
    rewrite !run_contribution. by rewrite contributed_comm.
  - rewrite IH1 by done. apply IH2. by rewrite <- Hp1.
Qed.

(** C7: contributions applied in two orders that are permutations of each
    other end in defined behaviour with the same object, matrix for matrix;
    with sums read as exact, the equality is exact. *)
Theorem accumulation_order_independent rt ops ops' c :
  Forall is_contribution ops → ops ≡ₚ ops' →
  ∃ c', run rt ops c = Some c' ∧ run rt ops' c = Some c'.
Proof.
  intros Hall Hp.
  destruct (run_contributions_total rt ops c Hall) as [c' Hc'].
  exists c'. split; [done|]. by rewrite <- (run_permutation rt ops ops').
Qed.

Lemma accumulation_order_independent_witness :
  ∃ c',
    run same_time
      [call_add_contribution verb verb (gain 1%R) (gain 1%R) [1%R] 0%R 0%R;
       call_add_contribution verb verb (gain 2%R) (gain 1%R) [1%R] 0%R 0%R]
      (scenario 1e-12%R) = Some c'
    ∧ run same_time
        [call_add_contribution verb verb (gain 2%R) (gain 1%R) [1%R] 0%R 0%R;
         call_add_contribution verb verb (gain 1%R) (gain 1%R) [1%R] 0%R 0%R]
        (scenario 1e-12%R) = Some c'.
Proof.
  apply accumulation_order_independent.
  - repeat (apply Forall_cons_2; [exact I|]). apply Forall_nil_2.
  - apply perm_swap.
Defined.

(** * Further properties of the code *)

(** ** The cells as a store *)

Lemma alter_lookup_id {A} (f : A → A) (l : list A) i x :
  l !! i = Some x → f x = x → alter f i l = l.
Proof.
  intros Hl Hf. apply list_eq. intros j. rewrite list_lookup_alter.
  destruct (decide (i = j)) as [<-|]; [|done]. rewrite Hl. cbn. by rewrite Hf.
Qed.

Lemma store_same_cell (g : list (list (list matrix))) a s r m :
  cell g a s r = Some m →
  alter (alter (λ row, <[r := m]> row) s) a g = g.
Proof.
  intros H. apply cell_lookup in H as (plane & row & Ha & Hs & Hr).
  apply (alter_lookup_id _ _ _ plane Ha).
  apply (alter_lookup_id _ _ _ row Hs).
  by apply list_insert_id.
Qed.

Lemma store_twice (g : list (list (list matrix))) a s r m1 m2 :
  alter (alter (λ row, <[r := m2]> row) s) a
        (alter (alter (λ row, <[r := m1]> row) s) a g)
  = alter (alter (λ row, <[r := m2]> row) s) a g.
Proof.
  rewrite list_alter_alter_eq. apply list_alter_ext; [|done].
  intros plane _. cbn. rewrite list_alter_alter_eq.
  apply list_alter_ext; [|done]. intros row _. cbn.
  apply list_insert_insert_eq.
Qed.

Lemma store_commute (g : list (list (list matrix))) a s r m a' s' r' m' :
  (a, s, r) ≠ (a', s', r') →
  alter (alter (λ row, <[r' := m']> row) s') a'
        (alter (alter (λ row, <[r := m]> row) s) a g)
  = alter (alter (λ row, <[r := m]> row) s) a
          (alter (alter (λ row, <[r' := m']> row) s') a' g).
Proof.
  intros Hne. destruct (decide (a' = a)) as [->|Ha].
  - rewrite !list_alter_alter_eq. apply list_alter_ext; [|done].
    intros plane _. cbn. destruct (decide (s' = s)) as [->|Hs].
    + rewrite !list_alter_alter_eq. apply list_alter_ext; [|done].
      intros row _. cbn. apply list_insert_insert_ne. congruence.
    + by apply list_alter_alter_ne.
  - by apply list_alter_alter_ne.
Qed.

(** X1: storing back the matrix that the getter returned leaves the object
    exactly as it was. *)
Theorem set_envelope_of_envelope c a s r :
  is_Some (cell (_envelopes c) a s r) →
  ((m ← envelope a s r; set_envelope m a s r) c).2 = Returns tt c.
Proof.
  intros [m Hm]. unfold mbind, M_bind, bind.
  rewrite envelope_run, Hm, set_envelope_run, Hm. cbn.
  rewrite store_same_cell by done. by destruct c.
Qed.

Lemma set_envelope_of_envelope_witness :
  ((m ← envelope 0 0 0; set_envelope m 0 0 0) (scenario 0%R)).2
  = Returns tt (scenario 0%R).
Proof. apply set_envelope_of_envelope. by eexists. Defined.

(** X2: of two calls of the setter on the same cell the second one wins:
    the outcome is that of the second call alone, undefined behaviour
    included. *)
Theorem set_envelope_last_wins c m1 m2 a s r :
  ((set_envelope m1 a s r;; set_envelope m2 a s r) c).2
  = (set_envelope m2 a s r c).2.
Proof.
  unfold mbind, M_bind, bind. rewrite !set_envelope_run.
  destruct (cell (_envelopes c) a s r) as [m|] eqn:Hm; [|done].
  rewrite set_envelope_run. cbn.
  rewrite cell_store by eauto. rewrite decide_True by done. cbn.
  by rewrite store_twice.
Qed.

(** X3: calls of the setter on two different cells commute: either order
    leaves the same object, and either order is undefined when one of the
    cells is outside the arrays. *)
Theorem set_envelope_commutes c m a s r m' a' s' r' :
  (a, s, r) ≠ (a', s', r') →
  ((set_envelope m a s r;; set_envelope m' a' s' r') c).2
  = ((set_envelope m' a' s' r';; set_envelope m a s r) c).2.
Proof.
  intros Hne. unfold mbind, M_bind, bind. rewrite !set_envelope_run.
  destruct (cell (_envelopes c) a s r) as [m0|] eqn:Hm;
    destruct (cell (_envelopes c) a' s' r') as [m0'|] eqn:Hm'.
  - rewrite !set_envelope_run. cbn.
    rewrite !cell_store by eauto.
    rewrite !decide_False by congruence. rewrite Hm, Hm'. cbn.
    by rewrite store_commute.
  - rewrite set_envelope_run. cbn. rewrite cell_store by eauto.
    rewrite decide_False by done. by rewrite Hm'.
  - rewrite set_envelope_run. cbn. rewrite cell_store by eauto.
    rewrite decide_False by congruence. by rewrite Hm.
  - done.
Qed.

Lemma set_envelope_commutes_witness :
  ((set_envelope (gain 1%R) 0 0 0;; set_envelope (gain 2%R) 1 0 0)
     (scenario 0%R)).2
  = ((set_envelope (gain 2%R) 1 0 0;; set_envelope (gain 1%R) 0 0 0)
       (scenario 0%R)).2.
Proof. apply set_envelope_commutes. congruence. Defined.

(** ** Sequences of header calls *)

Lemma same_configuration_refl c : same_configuration c c.
Proof. by repeat split. Qed.

Lemma same_configuration_trans c1 c2 c3 :
  same_configuration c1 c2 → same_configuration c2 c3 →
  same_configuration c1 c3.
Proof.
  unfold same_configuration. intros H1 H2.
  destruct_and!. repeat split; congruence.
Qed.

Lemma allocated_same_cells c c' :
  (∀ a s r, is_Some (cell (_envelopes c') a s r)
            ↔ is_Some (cell (_envelopes c) a s r)) →
  same_configuration c c' → allocated c → allocated c'.
Proof.
  intros Hcells (_ & _ & _ & _ & _ & Ha & Hs & Hr & _) Hal a s r.
  rewrite Ha, Hs, Hr. etrans; [apply Hal|]. symmetry. apply Hcells.
Qed.

(** One header call: it is defined exactly when its indices are in range,
    and then it keeps the configuration and the extents and changes at most
    the addressed cell or the addressed member. *)
Lemma perform_header rt op c :
  header_call op → allocated c →
  match final (perform rt op c) with
  | Some c' =>
      indices_in_range c op ∧ same_configuration c c' ∧ allocated c'
  | None => ¬ indices_in_range c op
  end.
Proof.
  intros Hop Hal.
  destruct op as [a s r|m a s r|sv rv sb rb sc xs2 ys2|dt sr pr|t|p|p];
    try done; cbn [perform indices_in_range].
  - unfold mbind, M_bind, bind. rewrite envelope_run.
    destruct (cell (_envelopes c) a s r) as [m|] eqn:Hm; cbn.
    + split; [apply Hal; eauto|]. split; [apply same_configuration_refl|done].
    + intros Hin. apply Hal in Hin as [m Hm']. congruence.
  - rewrite set_envelope_run.
    destruct (cell (_envelopes c) a s r) as [m0|] eqn:Hm; cbn.
    + split; [apply Hal; eauto|].
      assert (Hconf : same_configuration c
                (with_envelopes
                   (alter (alter (λ row, <[r := m]> row) s) a (_envelopes c))
                   c)) by (by repeat split).
      split; [done|]. eapply allocated_same_cells; [|done..].
      intros a' s' r'. cbn. rewrite cell_store by eauto.
      case_decide as E; [|done]. simplify_eq. split; eauto.
    + intros Hin. apply Hal in Hin as [m' Hm']. congruence.
Qed.

Lemma indices_in_range_same c c' op :
  same_configuration c c' → indices_in_range c' op ↔ indices_in_range c op.
Proof.
  intros (_ & _ & _ & _ & _ & Ha & Hs & Hr & _).
  destruct op; cbn; try done; by rewrite Ha, Hs, Hr.
Qed.

(** X4: on an object whose arrays have the recorded extents, a sequence of
    header calls ends in defined behaviour exactly when every cell access in
    it has its three indices in range. *)
Theorem header_run_defined_iff_in_range rt ops : ∀ c,
  allocated c → Forall header_call ops →
  is_Some (run rt ops c) ↔ Forall (indices_in_range c) ops.
Proof.
  induction ops as [|op ops IH]; intros c Hal Hops.
  - split; [done|]. by eexists.
  - apply Forall_cons in Hops as [Hop Hops]. cbn [run].
    pose proof (perform_header rt op c Hop Hal) as H.
    destruct (final (perform rt op c)) as [c1|]; cbn.
    + destruct H as (Hin & Hconf & Hal1).
      rewrite (IH c1 Hal1 Hops), Forall_cons.
      split.
      * intros Hall. split; [done|].
        eapply Forall_impl; [exact Hall|]. intros op'.
        apply (indices_in_range_same c c1 op' Hconf).
      * intros [_ Hall]. eapply Forall_impl; [exact Hall|]. intros op'.
        apply (indices_in_range_same c c1 op' Hconf).
    + split; [by intros [? ?]|]. intros Hall.
      apply Forall_cons in Hall as [Hin _]. done.
Qed.

Lemma header_run_defined_iff_in_range_witness :
  is_Some (run same_time
             [call_set_initial_time 3%R; call_set_envelope (gain 7%R) 0 0 0;
              call_envelope 0 0 0]
             (scenario 0%R)).
Proof.
  apply (header_run_defined_iff_in_range same_time _ (scenario 0%R)
           (scenario_allocated 0%R)).
  - repeat (apply Forall_cons_2; [exact I|]). apply Forall_nil_2.
  - apply Forall_cons_2; [exact I|].
    repeat (apply Forall_cons_2; [cbn; lia|]). apply Forall_nil_2.
Defined.

(** X5: a sequence of header calls never changes the axes, the durations,
    the threshold, the three extents, the slant range, the sensor ids or the
    envelope model, and it keeps the arrays at the recorded extents. *)
Theorem header_run_keeps_configuration rt ops : ∀ c c',
  allocated c → Forall header_call ops → run rt ops c = Some c' →
  same_configuration c c' ∧ allocated c'.
Proof.
  induction ops as [|op ops IH]; intros c c' Hal Hops; cbn [run].
  - intros [= <-]. split; [apply same_configuration_refl|done].
  - apply Forall_cons in Hops as [Hop Hops].
    pose proof (perform_header rt op c Hop Hal) as H.
    destruct (final (perform rt op c)) as [c1|]; cbn; [|done].
    destruct H as (_ & Hconf & Hal1). intros Hrun.
    destruct (IH c1 c' Hal1 Hops Hrun) as [Hconf' Hal'].
    split; [by eapply same_configuration_trans|done].
Qed.

Lemma header_run_keeps_configuration_witness :
  same_configuration (scenario 0%R)
    (with_initial_time 3%R (with_envelopes [[[gain 7%R]]] (scenario 0%R))).
Proof.
  refine (proj1 (header_run_keeps_configuration same_time
    [call_set_envelope (gain 7%R) 0 0 0; call_set_initial_time 3%R]
    (scenario 0%R) _ (scenario_allocated 0%R) _ _)).
  - repeat (apply Forall_cons_2; [exact I|]). apply Forall_nil_2.
  - reflexivity.
Defined.

(** X6: after a sequence of header calls each cell holds the matrix of the
    last call of the setter on that cell, or what it held before when the
    sequence has none. *)
Theorem header_run_last_stored rt ops : ∀ c c' a s r,
  Forall header_call ops → run rt ops c = Some c' →
  cell (_envelopes c') a s r
  = last_stored a s r ops (cell (_envelopes c) a s r).
Proof.
  induction ops as [|op ops IH]; intros c c' a s r Hops; cbn [run].
  - by intros [= <-].
  - apply Forall_cons in Hops as [Hop Hops].
    destruct (final (perform rt op c)) as [c1|] eqn:E; cbn; [|done].
    intros Hrun. rewrite (IH c1 c' a s r Hops Hrun). unfold last_stored.
    cbn [fold_left]. f_equal.
    destruct op as [a' s' r'|m a' s' r'|sv rv sb rb sc xs2 ys2|dt sr pr|t|p|p];
      try done; cbn [perform] in E.
    + unfold mbind, M_bind, bind in E. rewrite envelope_run in E.
      destruct (cell (_envelopes c) a' s' r'); cbn in E; by simplify_eq.
    + rewrite set_envelope_run in E.
      destruct (cell (_envelopes c) a' s' r') eqn:Hm; cbn in E; [|done].
      simplify_eq. cbn. by rewrite cell_store by eauto.
    + cbn in E. by simplify_eq.
    + cbn in E. by simplify_eq.
    + cbn in E. by simplify_eq.
Qed.

Lemma header_run_last_stored_witness :
  cell (_envelopes (with_envelopes [[[gain 2%R]]] (scenario 0%R))) 0 0 0
  = Some (gain 2%R).
Proof.
  apply (header_run_last_stored same_time
           [call_set_envelope (gain 1%R) 0 0 0; call_envelope 0 0 0;
            call_set_envelope (gain 2%R) 0 0 0] (scenario 0%R)).
  - repeat (apply Forall_cons_2; [exact I|]). apply Forall_nil_2.
  - reflexivity.
Defined.

Lemma header_run_last_members rt ops : ∀ c c',
  Forall header_call ops → run rt ops c = Some c' →
  _initial_time c' = last_initial_time ops (_initial_time c)
  ∧ _source_position c' = last_source_position ops (_source_position c)
  ∧ _receiver_position c'
    = last_receiver_position ops (_receiver_position c).
Proof.
  induction ops as [|op ops IH]; intros c c' Hops; cbn [run].
  - by intros [= <-].
  - apply Forall_cons in Hops as [Hop Hops].
    destruct (final (perform rt op c)) as [c1|] eqn:E; cbn; [|done].
    intros Hrun. destruct (IH c1 c' Hops Hrun) as (-> & -> & ->).
    unfold last_initial_time, last_source_position, last_receiver_position.
    cbn [fold_left].
    assert (_initial_time c1
            = match op with call_set_initial_time t' => t'
              | _ => _initial_time c end
            ∧ _source_position c1
              = match op with call_set_source_position p' => p'
                | _ => _source_position c end
            ∧ _receiver_position c1
              = match op with call_set_receiver_position p' => p'
                | _ => _receiver_position c end) as (-> & -> & ->); [|done].
    destruct op as [a' s' r'|m a' s' r'|sv rv sb rb sc xs2 ys2|dt sr pr|t|p|p];
      try done; cbn [perform] in E.
    + unfold mbind, M_bind, bind in E. rewrite envelope_run in E.
      destruct (cell (_envelopes c) a' s' r'); cbn in E; by simplify_eq.
    + rewrite set_envelope_run in E.
      destruct (cell (_envelopes c) a' s' r') eqn:Hm; cbn in E; [|done].
      by simplify_eq.
    + cbn in E. by simplify_eq.
    + cbn in E. by simplify_eq.
    + cbn in E. by simplify_eq.
Qed.

(** X7: after a sequence of header calls the initial time and the two
    positions are those of the last call of their setters, whatever cell
    accesses and other setters come in between; the getters return them. *)
Theorem header_run_last_metadata rt ops c c' :
  Forall header_call ops → run rt ops c = Some c' →
  (initial_time c').2
    = Returns (last_initial_time ops (_initial_time c)) c'
  ∧ (source_position c').2
    = Returns (last_source_position ops (_source_position c)) c'
  ∧ (receiver_position c').2
    = Returns (last_receiver_position ops (_receiver_position c)) c'.
Proof.
  intros Hops Hrun.
  destruct (header_run_last_members rt ops c c' Hops Hrun) as (H1 & H2 & H3).
  unfold initial_time, source_position, receiver_position, load. cbn [snd].
  by rewrite H1, H2, H3.
Qed.

Lemma header_run_last_metadata_witness :
  (initial_time
     (with_initial_time 5%R (with_envelopes [[[gain 7%R]]]
        (with_initial_time 3%R (scenario 0%R))))).2
  = Returns 5%R
      (with_initial_time 5%R (with_envelopes [[[gain 7%R]]]
         (with_initial_time 3%R (scenario 0%R)))).
Proof.
  refine (proj1 (header_run_last_metadata same_time
    [call_set_initial_time 3%R; call_set_envelope (gain 7%R) 0 0 0;
     call_set_initial_time 5%R] (scenario 0%R) _ _ _)).
  - repeat (apply Forall_cons_2; [exact I|]). apply Forall_nil_2.
  - reflexivity.
Defined.

(** ** The sine beam pattern, continued *)

Section BeamPattern.

Import beam_pattern_sine.
Local Open Scope R_scope.

Lemma sin_small : 0 < sin 1e-10 < 1e-10.
Proof.
  split.
  - apply sin_gt_0; pose proof PI2_1; lra.
  - apply sin_lt_x. lra.
Qed.

Lemma half_angles de az theta phi :
  1.0 - 2.0 * (sin (0.5 * (PI / 2 - de - theta) + 1e-10)
               * sin (0.5 * (PI / 2 - de - theta) + 1e-10)
               + sin (PI / 2 - de) * sin theta
                 * sin (0.5 * (az + phi) + 1e-10)
                 * sin (0.5 * (az + phi) + 1e-10))
  = sin (de + theta - 2e-10)
    - cos de * sin theta * (1 - cos (az + phi + 2e-10)).
Proof.
  rewrite <- (cos_shift (de + theta - 2e-10)), <- (sin_shift de).
  replace (PI / 2 - (de + theta - 2e-10))
    with (2 * (0.5 * (PI / 2 - de - theta) + 1e-10)) by lra.
  replace (az + phi + 2e-10) with (2 * (0.5 * (az + phi) + 1e-10)) by lra.
  rewrite !cos_2a_sin. lra.
Qed.

Ltac beam_value :=
  unfold beam_level, scalar_vector in *; cbv zeta in *;
  rewrite ?half_angles in *.

Lemma sin_2PI_shift x : sin (x + 2 * PI) = sin x.
Proof.
  replace (x + 2 * PI) with (x + PI + PI) by lra.
  rewrite !neg_sin. lra.
Qed.

Lemma cos_2PI_shift x : cos (x + 2 * PI) = cos x.
Proof.
  replace (x + 2 * PI) with (x + PI + PI) by lra.
  rewrite !neg_cos. lra.
Qed.

(** X8: every entry of the level vector is
    sin(de + theta - 2e-10) - cos(de) sin(theta) (1 - cos(az + phi + 2e-10)):
    but for the two offsets of 1e-10, the cosine of the angle between the
    arrival direction and the steering direction. *)
Theorem beam_level_closed_form de az theta phi frequencies :
  beam_level de az theta phi frequencies
  = replicate (length frequencies)
      (sin (de + theta - 2e-10)
       - cos de * sin theta * (1 - cos (az + phi + 2e-10))).
Proof.
  unfold beam_level, scalar_vector. cbv zeta. f_equal. apply half_angles.
Qed.

(** X9: no entry of the level vector is outside [-1 - 2e-10, 1 + 2e-10]. *)
Theorem beam_level_bounded de az theta phi frequencies x :
  x ∈ beam_level de az theta phi frequencies →
  -1 - 2e-10 <= x <= 1 + 2e-10.
Proof.
  beam_value. intros [-> _]%elem_of_replicate.
  pose proof (form4 (de + theta - 2e-10) (de + theta)) as Hd.
  replace ((de + theta - 2e-10 - (de + theta)) / 2) with (Ropp 1e-10) in Hd by lra.
  rewrite sin_neg in Hd.
  set (k := cos ((de + theta - 2e-10 + (de + theta)) / 2)) in Hd.
  pose proof (COS_bound ((de + theta - 2e-10 + (de + theta)) / 2)) as Hk.
  fold k in Hk.
  pose proof sin_small as He.
  pose proof (sin_plus de theta) as Hp. pose proof (sin_minus de theta) as Hm.
  pose proof (SIN_bound (de + theta)) as Bp.
  pose proof (SIN_bound (de - theta)) as Bm.
  pose proof (COS_bound (az + phi + 2e-10)) as Bc.
  set (c := cos (az + phi + 2e-10)) in *.
  set (a := sin de * cos theta) in *. set (b := cos de * sin theta) in *.
  set (e := sin 1e-10) in *.
  set (d := sin (de + theta - 2e-10)) in *.
  assert (0 <= (1 + c) * (1 - (a + b))) by (apply Rmult_le_pos; lra).
  assert (0 <= (1 - c) * (1 - (a - b))) by (apply Rmult_le_pos; lra).
  assert (0 <= (1 + c) * (1 + (a + b))) by (apply Rmult_le_pos; lra).
  assert (0 <= (1 - c) * (1 + (a - b))) by (apply Rmult_le_pos; lra).
  assert (- e <= k * e <= e) by nra.
  nra.
Qed.

Lemma beam_level_bounded_witness :
  -1 - 2e-10
  <= sin (0 + 0 - 2e-10) - cos 0 * sin 0 * (1 - cos (0 + 0 + 2e-10))
  <= 1 + 2e-10.
Proof.
  apply (beam_level_bounded 0 0 0 0 [1000]).
  beam_value. apply list_elem_of_here.
Defined.

(** X10: the level vector does not change when 2π is added to any one of
    the four angles, nor when an angle is moved from [az] to [phi]: the two
    azimuths enter through their sum. *)
Theorem beam_level_symmetries de az theta phi frequencies :
  beam_level (de + 2 * PI) az theta phi frequencies
    = beam_level de az theta phi frequencies
  ∧ beam_level de (az + 2 * PI) theta phi frequencies
    = beam_level de az theta phi frequencies
  ∧ beam_level de az (theta + 2 * PI) phi frequencies
    = beam_level de az theta phi frequencies
  ∧ beam_level de az theta (phi + 2 * PI) frequencies
    = beam_level de az theta phi frequencies
  ∧ ∀ d, beam_level de (az + d) theta (phi - d) frequencies
         = beam_level de az theta phi frequencies.
Proof.
  beam_value. repeat split; [..|intros d; beam_value]; f_equal.
  - replace (de + 2 * PI + theta - 2e-10) with (de + theta - 2e-10 + 2 * PI)
      by lra.
    by rewrite sin_2PI_shift, cos_2PI_shift.
  - replace (az + 2 * PI + phi + 2e-10) with (az + phi + 2e-10 + 2 * PI)
      by lra.
    by rewrite cos_2PI_shift.
  - replace (de + (theta + 2 * PI) - 2e-10)
      with (de + theta - 2e-10 + 2 * PI) by lra.
    by rewrite !sin_2PI_shift.
  - replace (az + (phi + 2 * PI) + 2e-10) with (az + phi + 2e-10 + 2 * PI)
      by lra.
    by rewrite cos_2PI_shift.
  - by replace (az + d + (phi - d) + 2e-10) with (az + phi + 2e-10) by lra.
Qed.

(** X11: on the steering axis (de = π/2 - theta, az = -phi) the level is 1
    to within 4e-20: at most 1 and at least 1 - 4e-20. *)
Theorem beam_level_on_axis theta phi :
  ∃ x, 1 - 4e-20 <= x <= 1
       ∧ ∀ frequencies,
           beam_level (PI / 2 - theta) (- phi) theta phi frequencies
           = replicate (length frequencies) x.
Proof.
  eexists. split; [|intros; reflexivity].
  replace (0.5 * (PI / 2 - (PI / 2 - theta) - theta) + 1e-10) with 1e-10
    by lra.
  replace (0.5 * (- phi + phi) + 1e-10) with 1e-10 by lra.
  replace (PI / 2 - (PI / 2 - theta)) with theta by lra.
  pose proof sin_small as He. pose proof (SIN_bound theta) as Ht.
  set (e := sin 1e-10) in *. set (t := sin theta) in *.
  assert (0 <= t * t <= 1) by nra.
  assert (0 < e * e < 1e-20) by nra.
  split; nra.
Qed.

(** X12: the directivity index has one entry per frequency, does not depend
    on the frequency values, and every entry is the same number, between 3
    and 3.02 (decibels). *)
Theorem directivity_index_three_decibels :
  ∃ x, 3 < x < 3.02
       ∧ ∀ frequencies,
           directivity_index frequencies = replicate (length frequencies) x.
Proof.
  eexists. split; [|intros; reflexivity]. unfold log10.
  assert (H10 : 0 < ln 10).
  { rewrite <- ln_1. apply ln_increasing; lra. }
  assert (Hpow : ∀ x n, 0 < x → ln (x ^ n) = IZR (Z.of_nat n) * ln x).
  { intros x n Hx. rewrite ln_pow by done. by rewrite INR_IZR_INZ. }
  assert (Hlo : 3 * ln 10 < 10 * ln 2).
  { pose proof (Hpow 10 3%nat ltac:(lra)) as E1.
    pose proof (Hpow 2 10%nat ltac:(lra)) as E2.
    change (IZR (Z.of_nat 3)) with 3 in E1.
    change (IZR (Z.of_nat 10)) with 10 in E2.
    rewrite <- E1, <- E2. apply ln_increasing; lra. }
  assert (Hhi : 500 * ln 2 < 151 * ln 10).
  { pose proof (Hpow 2 500%nat ltac:(lra)) as E1.
    pose proof (Hpow 10 151%nat ltac:(lra)) as E2.
    change (IZR (Z.of_nat 500)) with 500 in E1.
    change (IZR (Z.of_nat 151)) with 151 in E2.
    rewrite <- E1, <- E2. apply ln_increasing; [|lra].
    apply pow_lt. lra. }
  replace 2.0 with 2 by lra. replace 10.0 with 10 by lra.
  assert (E : 10 * (ln 2 / ln 10) * ln 10 = 10 * ln 2) by (field; lra).
  split; apply Rmult_lt_reg_r with (ln 10); try done; rewrite ?E; lra.
Qed.

End BeamPattern.

(** ** The targets of the analytic wedge study *)

Section Wedge.

Import analytic_wedge.
Local Open Scope R_scope.

Variable wposition : Type.
Variable size1 : wposition → nat.
Variable latitude longitude altitude : wposition → nat → nat → double.
Variable set_longitude : nat → nat → double → wposition → wposition.

(** What the setter of a longitude does to the accessors. *)
Hypothesis size1_set : ∀ n m v w, size1 (set_longitude n m v w) = size1 w.
Hypothesis latitude_set :
  ∀ n m v w i j, latitude (set_longitude n m v w) i j = latitude w i j.
Hypothesis altitude_set :
  ∀ n m v w i j, altitude (set_longitude n m v w) i j = altitude w i j.
Hypothesis longitude_set_same :
  ∀ n v w, (n < size1 w)%nat → longitude (set_longitude n 0 v w) n 0 = v.
Hypothesis longitude_set_other :
  ∀ n m v w i j, i ≠ n →
    longitude (set_longitude n m v w) i j = longitude w i j.

Lemma placed_frame ns : ∀ t,
  size1 (fold_left (place_target wposition set_longitude) ns t) = size1 t
  ∧ (∀ i j, latitude (fold_left (place_target wposition set_longitude) ns t) i j = latitude t i j)
  ∧ (∀ i j, altitude (fold_left (place_target wposition set_longitude) ns t) i j = altitude t i j)
  ∧ (∀ i j, i ∉ ns → longitude (fold_left (place_target wposition set_longitude) ns t) i j = longitude t i j).
Proof.
  induction ns as [|n ns IH]; intros t; [done|]. cbn [fold_left].
  destruct (IH (place_target wposition set_longitude t n)) as (H1 & H2 & H3 & H4). unfold place_target in *.
  repeat split.
  - by rewrite H1, size1_set.
  - intros. by rewrite H2, latitude_set.
  - intros. by rewrite H3, altitude_set.
  - intros i j Hi. apply not_elem_of_cons in Hi as [Hne Hi].
    rewrite H4 by done. by apply longitude_set_other.
Qed.

Lemma placed_value ns : ∀ t n,
  NoDup ns → n ∈ ns → (n < size1 t)%nat →
  longitude (fold_left (place_target wposition set_longitude) ns t) n 0 = inc * INR n.
Proof.
  induction ns as [|n' ns IH]; intros t n Hnd Hin Hn.
  - by apply elem_of_nil in Hin.
  - apply NoDup_cons in Hnd as [Hn' Hnd]. cbn [fold_left].
    apply elem_of_cons in Hin as [->|Hin].
    + destruct (placed_frame ns (place_target wposition set_longitude t n')) as (_ & _ & _ & H4).
      rewrite H4 by done. unfold place_target. by apply longitude_set_same.
    + apply IH; [done..|]. unfold place_target. by rewrite size1_set.
Qed.

Lemma m_2_deg_pos : 0 < m_2_deg.
Proof. unfold m_2_deg. lra. Qed.

Lemma INR_num_targets : INR num_targets = 201.
Proof. unfold num_targets. by rewrite INR_IZR_INZ. Qed.

(** X13: the loop over the targets gives row n, for 1 <= n < size1, the
    longitude inc * n in column 0; it leaves row 0, every latitude, every
    altitude and the number of rows as they were. *)
Theorem place_targets_longitudes target :
  size1 (place_targets wposition size1 set_longitude target) = size1 target
  ∧ (∀ i j, latitude (place_targets wposition size1 set_longitude target) i j
            = latitude target i j)
  ∧ (∀ i j, altitude (place_targets wposition size1 set_longitude target) i j
            = altitude target i j)
  ∧ (∀ j, longitude (place_targets wposition size1 set_longitude target) 0 j
          = longitude target 0 j)
  ∧ (∀ n, (1 ≤ n < size1 target)%nat →
          longitude (place_targets wposition size1 set_longitude target) n 0
          = inc * INR n).
Proof.
  unfold place_targets.
  destruct (placed_frame (seq 1 (size1 target - 1)) target)
    as (H1 & H2 & H3 & H4).
  repeat split; try done.
  - intros j. apply H4. rewrite elem_of_seq. lia.
  - intros n Hn. apply placed_value; [apply NoDup_seq| |lia].
    rewrite elem_of_seq. lia.
Qed.

(** X14: with the 201 targets of the study, target n lies 6000 n / 201
    meters along the longitude axis: the targets are 6000/201 meters apart
    and the last one stops short of 6000 meters. *)
Theorem place_targets_extent target n :
  size1 target = num_targets → (1 ≤ n < num_targets)%nat →
  longitude (place_targets wposition size1 set_longitude target) n 0 / m_2_deg
    = 6000 * INR n / 201
  ∧ longitude (place_targets wposition size1 set_longitude target) n 0
      / m_2_deg < 6000
  ∧ ((S n < num_targets)%nat →
     (longitude (place_targets wposition size1 set_longitude target) (S n) 0
      - longitude (place_targets wposition size1 set_longitude target) n 0)
       / m_2_deg = 6000 / 201).
Proof.
  intros Hsize Hn. unfold place_targets.
  assert (Hv : ∀ k, (1 ≤ k < num_targets)%nat →
    longitude (fold_left (place_target wposition set_longitude) (seq 1 (size1 target - 1)) target) k 0
    = inc * INR k).
  { intros k Hk. apply placed_value; [apply NoDup_seq| |lia].
    rewrite elem_of_seq. lia. }
  pose proof m_2_deg_pos as Hm.
  assert (Hinc : ∀ k, inc * INR k / m_2_deg = 6000 * INR k / 201).
  { intros k. unfold inc. rewrite INR_num_targets.
    replace 6000.0 with 6000 by lra. field. lra. }
  rewrite Hv by done. split; [apply Hinc|]. split.
  - rewrite Hinc. assert (INR n < 201).
    { rewrite <- INR_num_targets. apply lt_INR. lia. }
    lra.
  - intros HS. rewrite Hv by lia.
    replace ((inc * INR (S n) - inc * INR n) / m_2_deg)
      with (inc * INR (S n) / m_2_deg - inc * INR n / m_2_deg)
      by (field; lra).
    rewrite !Hinc, S_INR. lra.
Qed.

(** X15: the table written after the loop over the targets has one line
    per target; line n carries the number n, as depth the altitude and as
    range the latitude (in meters) that target n had before the loop, which
    sets longitudes only, and as intensity the loss to the placed targets.
    When every target starts at the same latitude, every line has the same
    range. *)
Theorem table_depth_and_range intensity target :
  length (table wposition size1 latitude altitude intensity
            (place_targets wposition size1 set_longitude target))
  = size1 target
  ∧ (∀ n line,
       table wposition size1 latitude altitude intensity
         (place_targets wposition size1 set_longitude target) !! n
       = Some line →
       csv_target line = n
       ∧ csv_depth line = altitude target n 0
       ∧ csv_range line = latitude target n 0 / m_2_deg
       ∧ csv_intensity line
         = - intensity (place_targets wposition size1 set_longitude target) n)
  ∧ ∀ x, (∀ n, latitude target n 0 = x) →
         ∀ line,
           line ∈ table wposition size1 latitude altitude intensity
                        (place_targets wposition size1 set_longitude target) →
           csv_range line = x / m_2_deg.
Proof.
  unfold place_targets.
  destruct (placed_frame (seq 1 (size1 target - 1)) target)
    as (H1 & H2 & H3 & _).
  unfold table. rewrite H1. split; [|split].
  - by rewrite length_fmap, length_seq.
  - intros n line. rewrite list_lookup_fmap.
    destruct (seq 0 (size1 target) !! n) as [k|] eqn:Hk; [|done].
    apply lookup_seq in Hk as [-> _]. cbn. intros [= <-]. cbn.
    by rewrite H2, H3.
  - intros x Hx line (n & -> & _)%list_elem_of_fmap. cbn.
    by rewrite H2, Hx.
Qed.

End Wedge.

Lemma column_set_longitude_laws :
  (∀ n m v (w : analytic_wedge.column),
     length (analytic_wedge.column_set_longitude n m v w) = length w)
  ∧ (∀ n m v w i j,
       analytic_wedge.column_latitude
         (analytic_wedge.column_set_longitude n m v w) i j
       = analytic_wedge.column_latitude w i j)
  ∧ (∀ n m v w i j,
       analytic_wedge.column_altitude
         (analytic_wedge.column_set_longitude n m v w) i j
       = analytic_wedge.column_altitude w i j)
  ∧ (∀ n v w, n < length w →
       analytic_wedge.column_longitude
         (analytic_wedge.column_set_longitude n 0 v w) n 0 = v)
  ∧ (∀ n m v w i j, i ≠ n →
       analytic_wedge.column_longitude
         (analytic_wedge.column_set_longitude n m v w) i j
       = analytic_wedge.column_longitude w i j).
Proof.
  unfold analytic_wedge.column_set_longitude, analytic_wedge.column_latitude,
    analytic_wedge.column_altitude, analytic_wedge.column_longitude,
    analytic_wedge.column, double.
  repeat split.
  - intros. apply length_alter.
  - intros. rewrite list_lookup_alter. case_decide; [subst|done].
    destruct (w !! i) as [[[la lo] al]|]; reflexivity.
  - intros. rewrite list_lookup_alter. case_decide; [subst|done].
    destruct (w !! i) as [[[la lo] al]|]; reflexivity.
  - intros n v w Hn. rewrite list_lookup_alter, decide_True by done.
    destruct (lookup_lt_is_Some_2 w n Hn) as [[[la lo] al] ->]. reflexivity.
  - intros. rewrite list_lookup_alter. by rewrite decide_False.
Qed.

Lemma place_targets_longitudes_witness :
  analytic_wedge.column_longitude
    (analytic_wedge.place_targets analytic_wedge.column length
       analytic_wedge.column_set_longitude
       (replicate 3 (0%R, 0%R, (-30)%R))) 2 0
  = (analytic_wedge.inc * INR 2)%R.
Proof.
  destruct column_set_longitude_laws as (L1 & L2 & L3 & L4 & L5).
  apply (place_targets_longitudes analytic_wedge.column length
           analytic_wedge.column_latitude analytic_wedge.column_longitude
           analytic_wedge.column_altitude analytic_wedge.column_set_longitude
           L1 L2 L3 L4 L5 (replicate 3 (0%R, 0%R, (-30)%R))).
  cbn. lia.
Defined.

Lemma place_targets_extent_witness :
  (analytic_wedge.column_longitude
     (analytic_wedge.place_targets analytic_wedge.column length
        analytic_wedge.column_set_longitude
        (replicate 201 (0%R, 0%R, (-30)%R))) 200 0
   / analytic_wedge.m_2_deg < 6000)%R.
Proof.
  destruct column_set_longitude_laws as (L1 & L2 & L3 & L4 & L5).
  apply (place_targets_extent analytic_wedge.column length
           analytic_wedge.column_latitude analytic_wedge.column_longitude
           analytic_wedge.column_altitude analytic_wedge.column_set_longitude
           L1 L2 L3 L4 L5 (replicate 201 (0%R, 0%R, (-30)%R)) 200).
  - apply length_replicate.
  - unfold analytic_wedge.num_targets. lia.
Defined.

Lemma table_depth_and_range_witness :
  Forall (λ line, analytic_wedge.csv_range line
                  = (0 / analytic_wedge.m_2_deg)%R)
    (analytic_wedge.table analytic_wedge.column length
       analytic_wedge.column_latitude analytic_wedge.column_altitude
       (λ w n, (80 + analytic_wedge.column_longitude w n 0)%R)
       (analytic_wedge.place_targets analytic_wedge.column length
          analytic_wedge.column_set_longitude
          (replicate 3 (0%R, 0%R, (-30)%R)))).
Proof.
  destruct column_set_longitude_laws as (L1 & L2 & L3 & L4 & L5).
  apply Forall_forall.
  apply (table_depth_and_range analytic_wedge.column length
           analytic_wedge.column_latitude analytic_wedge.column_longitude
           analytic_wedge.column_altitude analytic_wedge.column_set_longitude
           L1 L2 L3 L5
           (λ w n, (80 + analytic_wedge.column_longitude w n 0)%R)
           (replicate 3 (0%R, 0%R, (-30)%R))).
  intros n. by destruct n as [|[|[|n]]].
Defined.
